(** * nodriver.core.util: tree queries, in-place removal, serialisation,
      browser registry teardown and port allocation

    A shallow embedding of [src/nodriver/core/util.py].

    - The read-only traversals ([filter_recurse_all], [filter_recurse],
      [html_from_tree]) run over an immutable snapshot of the node tree,
      a rose tree of Python values.
    - [remove_from_tree] mutates [tree.children] while it iterates over
      it, so it runs over a store of node objects addressed by identity.
    - [deconstruct_browser] and [free_port] talk to the outside world
      (process handles, the file system, sockets); the world is a state
      that is threaded through, and every call made is recorded. *)

From stdpp Require Import base option list strings gmap sorting.
From Stdlib Require Import ZArith Lia.

(** ** Exceptions and results *)

(** The exception classes the module raises, catches or lets through.
    [FileNotFoundError] and [PermissionError] are subclasses of
    [OSError]; [OSError] below stands for every other member of that
    class.  [OtherError] is any exception outside the [OSError] family
    (a transport failure, say). *)
Inductive exn :=
  | TypeError (msg : string)
  | AttributeError
  | FileNotFoundError
  | PermissionError
  | OSError (errno : Z)
  | ValueError
  | OtherError (tag : Z).

Inductive result (A : Type) :=
  | Ok (a : A)
  | Raise (e : exn).
Arguments Ok {A} a.
Arguments Raise {A} e.

#[global] Instance exn_eq_dec : EqDecision exn.
Proof. solve_decision. Defined.

Definition no_children_attr : exn :=
  TypeError "object should have a .children attribute".

(** ** Python values seen by the traversals *)

(** [isinstance(child, Element)] separates the two node classes. *)
Inductive node_class := CdpNode | Element.

(** A value either exposes [.children] (a [cdp.dom.Node] or an
    [Element], both carrying a [backend_node_id]; [children] is
    [Optional[List[Node]]]) or it does not ([Opaque]).  An opaque value
    is only characterised by its truth value.  Nodes are always truthy:
    neither class defines [__bool__] or [__len__]. *)
#[warnings="-register-all"]
Inductive pyobj :=
  | Node (backend_node_id : Z) (cls : node_class)
         (children : option (list pyobj))
  | Opaque (truth : bool).

Definition truthy (v : pyobj) : bool :=
  match v with
  | Node _ _ _ => true
  | Opaque b => b
  end.

Definition hasattr_children (v : pyobj) : bool :=
  match v with
  | Node _ _ _ => true
  | Opaque _ => false
  end.

(** Induction over a value and, through the child lists, over all of its
    descendants. *)
Section pyobj_induction.
Variable P : pyobj → Prop.
Hypothesis P_opaque : ∀ b, P (Opaque b).
Hypothesis P_leaf : ∀ i c, P (Node i c None).
Hypothesis P_inner : ∀ i c cs, Forall P cs → P (Node i c (Some cs)).

Fixpoint pyobj_rose_ind (v : pyobj) : P v :=
  match v with
  | Opaque b => P_opaque b
  | Node i c kids =>
      match kids return P (Node i c kids) with
      | None => P_leaf i c
      | Some cs =>
          P_inner i c cs
            ((fix all (l : list pyobj) : Forall P l :=
                match l with
                | [] => List.Forall_nil P
                | x :: l' => List.Forall_cons P x l' (pyobj_rose_ind x) (all l')
                end) cs)
      end
  end.
End pyobj_induction.

(** ** [filter_recurse_all] and [filter_recurse] *)

Section find.
Variable predicate : pyobj → bool.

(** The body of [for child in doc.children] in [filter_recurse_all];
    [rec] is the recursive call, [out] the list built so far. *)
Fixpoint all_loop (rec : pyobj → result (list pyobj))
    (cs : list pyobj) (out : list pyobj) : result (list pyobj) :=
  match cs with
  | [] => Ok out
  | child :: rest =>
      let out1 := if predicate child then out ++ [child] else out in
      match rec child with
      | Raise e => Raise e
      | Ok sub => all_loop rec rest (out1 ++ sub)
      end
  end.

Fixpoint filter_recurse_all (doc : pyobj) : result (list pyobj) :=
  match doc with
  | Opaque _ => Raise no_children_attr
  | Node _ _ None => Ok []
  | Node _ _ (Some cs) => all_loop filter_recurse_all cs []
  end.

(** The body of the loop of [filter_recurse]; [Ok None] is Python's
    implicit [return None] after the loop. *)
Fixpoint first_loop (rec : pyobj → result (option pyobj))
    (cs : list pyobj) : result (option pyobj) :=
  match cs with
  | [] => Ok None
  | child :: rest =>
      if predicate child then Ok (Some child)
      else
        match rec child with
        | Raise e => Raise e
        | Ok (Some r) => if truthy r then Ok (Some r) else first_loop rec rest
        | Ok None => first_loop rec rest
        end
  end.

Fixpoint filter_recurse (doc : pyobj) : result (option pyobj) :=
  match doc with
  | Opaque _ => Raise no_children_attr
  | Node _ _ None => Ok None
  | Node _ _ (Some cs) => first_loop filter_recurse cs
  end.
End find.

(** *** What the queries are compared with *)

(** A tree: every value in it exposes [.children]. *)
Fixpoint is_tree (v : pyobj) : bool :=
  match v with
  | Opaque _ => false
  | Node _ _ None => true
  | Node _ _ (Some cs) => forallb is_tree cs
  end.

Definition path := list nat.

(** The value at a position, the root being at [[]]. *)
Fixpoint subtree_at (v : pyobj) (p : path) : option pyobj :=
  match p with
  | [] => Some v
  | i :: p' =>
      match v with
      | Node _ _ (Some cs) =>
          match cs !! i with
          | Some c => subtree_at c p'
          | None => None
          end
      | _ => None
      end
  end.

(** The strict subtree in document order, every entry with its
    position: each child is followed by its own descendants, children
    from left to right.  [children_at] lists the children [cs] of the
    node at [p], the first of them being child number [i]. *)
Section descendants.
Variable descendants_at : path → pyobj → list (path * pyobj).

Fixpoint children_at (p : path) (i : nat) (cs : list pyobj)
    : list (path * pyobj) :=
  match cs with
  | [] => []
  | c :: rest =>
      (p ++ [i], c) :: descendants_at (p ++ [i]) c
        ++ children_at p (S i) rest
  end.
End descendants.

Fixpoint descendants_at (p : path) (v : pyobj) : list (path * pyobj) :=
  match v with
  | Node _ _ (Some cs) => children_at descendants_at p 0 cs
  | _ => []
  end.

(** Positions are relative: [shift p] re-roots one at [p]. *)
Definition shift (p : path) (x : path * pyobj) : path * pyobj :=
  (p ++ x.1, x.2).

(** The entries of the strict subtree whose node satisfies the
    predicate, in document order. *)
Definition hit (predicate : pyobj → bool) (x : path * pyobj) : Prop :=
  predicate x.2 = true.

#[global] Instance hit_dec predicate x : Decision (hit predicate x).
Proof. unfold hit. apply _. Defined.

Definition matches_at (predicate : pyobj → bool) (v : pyobj)
    : list (path * pyobj) :=
  filter (hit predicate) (descendants_at [] v).

(** The nodes of the strict subtree in document order. *)
Definition descendants (v : pyobj) : list pyobj :=
  (descendants_at [] v).*2.

(** Document order on positions: an ancestor comes before its
    descendants, an earlier sibling's subtree before a later one's. *)
Fixpoint doc_before (p q : path) : Prop :=
  match p, q with
  | [], [] => False
  | [], _ :: _ => True
  | _ :: _, [] => False
  | i :: p', j :: q' => i < j ∨ (i = j ∧ doc_before p' q')
  end.

(** *** A sample tree and predicate *)

(** The root 0 has the children 1 and 2; 1 has the children 3 and 4. *)
Definition sample_tree : pyobj :=
  Node 0 CdpNode
    (Some [Node 1 CdpNode
             (Some [Node 3 Element None; Node 4 CdpNode (Some [])]);
           Node 2 Element None]).

Definition id_at_least (k : Z) (v : pyobj) : bool :=
  match v with
  | Node i _ _ => (k <=? i)%Z
  | Opaque _ => false
  end.

(** ** [html_from_tree] *)

(** What the coroutine awaits: [child.get_html()] for an [Element],
    [target.send(cdp.dom.get_outer_html(backend_node_id=...))]
    otherwise. *)
Inductive request :=
  | ElementGetHtml (backend_node_id : Z)
  | GetOuterHtml (backend_node_id : Z).

(** An awaited call completes after some time, with a text or with an
    exception. *)
Record reply := { latency : nat; body : result string }.

(** The remote side is any state machine [respond].  A session holds its
    state, the time spent waiting and the calls awaited so far with what
    each produced. *)
Record session (remote : Type) := {
  peer : remote;
  clock : nat;
  awaited : list (request * result string)
}.
Arguments peer {remote} s.
Arguments clock {remote} s.
Arguments awaited {remote} s.

Section serialize.
Context {remote : Type}.
Variable respond : remote → request → remote * reply.

(** [await]: the coroutine is suspended until the reply is there. *)
Definition await (rq : request) (s : session remote)
    : session remote * result string :=
  let '(peer', rp) := respond (peer s) rq in
  ({| peer := peer';
      clock := clock s + latency rp;
      awaited := awaited s ++ [(rq, body rp)] |},
   body rp).

(** The [if isinstance(child, Element) ... else ...] of the loop: which
    call is awaited for a child.  A child that is no [Element] and has
    no [backend_node_id] makes the attribute access fail before anything
    is sent. *)
Definition request_of (child : pyobj) : result request :=
  match child with
  | Node i Element _ => Ok (ElementGetHtml i)
  | Node i CdpNode _ => Ok (GetOuterHtml i)
  | Opaque _ => Raise AttributeError
  end.

(** [await child.get_html()], or [await target.send(...)]. *)
Definition own_markup (child : pyobj) (s : session remote)
    : session remote * result string :=
  match request_of child with
  | Ok rq => await rq s
  | Raise e => (s, Raise e)
  end.

(** The body of [for child in tree.children]: the child's own markup,
    then the markup of its subtree, both appended to [out]. *)
Fixpoint html_loop
    (rec : pyobj → session remote → session remote * result string)
    (cs : list pyobj) (out : string) (s : session remote)
    : session remote * result string :=
  match cs with
  | [] => (s, Ok out)
  | child :: rest =>
      match own_markup child s with
      | (s1, Raise e) => (s1, Raise e)
      | (s1, Ok own) =>
          match rec child s1 with
          | (s2, Raise e) => (s2, Raise e)
          | (s2, Ok sub) => html_loop rec rest ((out +:+ own) +:+ sub) s2
          end
      end
  end.

Fixpoint html_from_tree (tree : pyobj) (s : session remote)
    : session remote * result string :=
  match tree with
  | Opaque _ => (s, Raise no_children_attr)
  | Node _ _ None => (s, Ok EmptyString)
  | Node _ _ (Some cs) => html_loop html_from_tree cs EmptyString s
  end.
End serialize.

(** Among the calls [new] awaited during a run that ended with [r], a
    failed one is the last one, and its exception is what the run
    raised. *)
Definition failure_surfaces (new : list (request * result string))
    (r : result string) : Prop :=
  ∀ rq e, (rq, Raise e) ∈ new →
    r = Raise e ∧ ∃ pre, new = pre ++ [(rq, Raise e)].

Definition traced {remote : Type}
    (run : session remote → session remote * result string) : Prop :=
  ∀ s, ∃ new,
    awaited (run s).1 = awaited s ++ new ∧ failure_surfaces new (run s).2.

(** A node without children of its own: [children] is [None] or empty. *)
Definition childless (v : pyobj) : bool :=
  match v with
  | Node _ _ None | Node _ _ (Some []) => true
  | _ => false
  end.

(** *** Sample remote sides *)

Definition tag_of (rq : request) : string :=
  match rq with
  | ElementGetHtml 1 | GetOuterHtml 1 => "<a/>"
  | ElementGetHtml 2 | GetOuterHtml 2 => "<b/>"
  | _ => "<c/>"
  end.

(** The state counts the calls answered; every reply is faster than the
    one before. *)
Definition speeding_up (n : nat) (rq : request) : nat * reply :=
  (S n, {| latency := 30 - 10 * n; body := Ok (tag_of rq) |}).

(** The second call fails. *)
Definition failing_second (n : nat) (rq : request) : nat * reply :=
  (S n, {| latency := 10;
           body := if n =? 1 then Raise (OtherError 7) else Ok (tag_of rq) |}).

Definition three_leaves : pyobj :=
  Node 0 CdpNode
    (Some [Node 1 Element None; Node 2 CdpNode None;
           Node 3 CdpNode (Some [])]).

(** ** [remove_from_tree] *)

(** Node objects live in a store and are referred to by address, so that
    "the same instance" and "mutated in place" mean something.  A node
    owns its child list (the list object [tree.children] evaluates to). *)
Inductive obj :=
  | ONode (backend_node_id : Z) (children : option (list nat))
  | OOpaque (truth : bool).

Abbreviation heap := (gmap nat obj).

(** [x.backend_node_id]; [None] is a dangling address, which no Python
    state has. *)
Definition getattr_id (h : heap) (a : nat) : option (result Z) :=
  match h !! a with
  | Some (ONode i _) => Some (Ok i)
  | Some (OOpaque _) => Some (Raise AttributeError)
  | None => None
  end.

Section remove.
(** [a == b] on two node objects.  [cdp.dom.Node] is declared outside
    this module, so its [__eq__] is a parameter here. *)
Variable node_eq : heap → nat → nat → bool.

(** [l.remove(x)]: drops the first item that is [x] or compares equal
    to it; [None] is the [ValueError] of a list without such an item. *)
Fixpoint list_remove (h : heap) (x : nat) (l : list nat)
    : option (list nat) :=
  match l with
  | [] => None
  | y :: l' =>
      if (y =? x) || node_eq h y x then Some l'
      else (y ::.) <$> list_remove h x l'
  end.

(** [for child in tree.children: ...].  The list iterator keeps an
    index [i] into the list object and reads the list afresh at every
    step, so a removal during the loop shifts what the next step sees.
    [n] bounds the number of steps; [rec] is the recursive call. *)
Fixpoint remove_loop (rec : heap → nat → option (heap * result nat))
    (n : nat) (h : heap) (tree node : nat) (i : nat)
    : option (heap * result ()) :=
  match h !! tree with
  | Some (ONode tid (Some cs)) =>
      match cs !! i with
      | None => Some (h, Ok ())
      | Some child =>
          match n with
          | 0 => None
          | S n' =>
              match getattr_id h child, getattr_id h node with
              | None, _ => None
              | Some (Raise e), _ => Some (h, Raise e)
              | Some (Ok _), None => None
              | Some (Ok _), Some (Raise e) => Some (h, Raise e)
              | Some (Ok cid), Some (Ok nid) =>
                  let removal :=
                    if (cid =? nid)%Z then
                      match list_remove h child cs with
                      | Some cs' => Ok (<[tree := ONode tid (Some cs')]> h)
                      | None => Raise ValueError
                      end
                    else Ok h in
                  match removal with
                  | Raise e => Some (h, Raise e)
                  | Ok h1 =>
                      match rec h1 child with
                      | None => None
                      | Some (h2, Raise e) => Some (h2, Raise e)
                      | Some (h2, Ok _) => remove_loop rec n' h2 tree node (S i)
                      end
                  end
              end
          end
      end
  | _ => None
  end.

(** [fuel] bounds the depth of the recursion; [None] means it ran out
    (or a dangling address was met). *)
Fixpoint remove_from_tree (fuel : nat) (h : heap) (tree node : nat)
    : option (heap * result nat) :=
  match h !! tree with
  | None => None
  | Some (OOpaque _) => Some (h, Raise no_children_attr)
  | Some (ONode _ None) => Some (h, Ok tree)
  | Some (ONode _ (Some [])) => Some (h, Ok tree)
  | Some (ONode _ (Some cs)) =>
      match fuel with
      | 0 => None
      | S fuel' =>
          match remove_loop (λ h' c, remove_from_tree fuel' h' c node)
                  (length cs) h tree node 0 with
          | None => None
          | Some (h', Raise e) => Some (h', Raise e)
          | Some (h', Ok _) => Some (h', Ok tree)
          end
      end
  end.
End remove.

(** The tree stored at an address, read back as a value. *)
Fixpoint load (fuel : nat) (h : heap) (a : nat) : option pyobj :=
  match fuel with
  | 0 => None
  | S fuel' =>
      match h !! a with
      | None => None
      | Some (OOpaque b) => Some (Opaque b)
      | Some (ONode i None) => Some (Node i CdpNode None)
      | Some (ONode i (Some cs)) =>
          (λ kids, Node i CdpNode (Some kids)) <$> mapM (load fuel' h) cs
      end
  end.

(** [a] has a direct child whose identity is [i]. *)
Definition has_child_with_id (h : heap) (a : nat) (i : Z) : Prop :=
  ∃ j cs c k, h !! a = Some (ONode j (Some cs)) ∧ c ∈ cs ∧
    h !! c = Some (ONode i k).

(** The nodes of the tree rooted at an address. *)
Inductive reaches (h : heap) (root : nat) : nat → Prop :=
  | reaches_root : reaches h root root
  | reaches_child a i cs c :
      reaches h root a → h !! a = Some (ONode i (Some cs)) → c ∈ cs →
      reaches h root c.

(** The only change [remove_from_tree] makes to an object: a node's
    child list loses items. *)
Definition obj_shrinks (o o' : obj) : Prop :=
  match o, o' with
  | ONode i (Some cs), ONode i' (Some cs') => i = i' ∧ cs' `sublist_of` cs
  | _, _ => o' = o
  end.

Definition shrinks (h h' : heap) : Prop :=
  ∀ a o, h !! a = Some o → ∃ o', h' !! a = Some o' ∧ obj_shrinks o o'.

(** What every candidate for [==] on nodes guarantees (identity, the
    field-wise comparison of a dataclass, a comparison of
    [backend_node_id]): nodes that compare equal have the same
    [backend_node_id]. *)
Definition eq_respects_id (node_eq : heap → nat → nat → bool) : Prop :=
  ∀ h a b i j ka kb,
    h !! a = Some (ONode i ka) → h !! b = Some (ONode j kb) →
    node_eq h a b = true → i = j.

(** [==] as object identity. *)
Definition same_object (h : heap) (a b : nat) : bool := a =? b.

(** *** Sample trees in the store *)

(** The root (address 0) has the children A (address 1, identity 1),
    B (address 2, identity 2) and C (address 3, identity 2). *)
Definition heap_siblings : heap :=
  <[0 := ONode 0 (Some [1; 2; 3])]> (<[1 := ONode 1 None]>
    (<[2 := ONode 2 None]> (<[3 := ONode 2 None]> ∅))).

(** The root (address 0) has the children B (address 1, identity 2) and
    C (address 2, identity 3); C has the child D (address 3,
    identity 2). *)
Definition heap_nested : heap :=
  <[0 := ONode 0 (Some [1; 2])]> (<[1 := ONode 2 None]>
    (<[2 := ONode 3 (Some [3])]> (<[3 := ONode 2 None]> ∅))).

(** ** [deconstruct_browser] *)

(** What the teardown reads of a [Config] and of a [Browser]. *)
Record Config := {
  custom_data_dir : bool;
  user_data_dir : string
}.

Record Browser := {
  pid : nat;
  stopped : bool;
  config : option Config
}.

(** Everything the teardown does to the outside world, in the order in
    which it happens.  [Sleep] carries milliseconds: [time.sleep(0.15)]
    is [Sleep 150]. *)
Inductive event :=
  | Stop (pid : nat)
  | Rmtree (path : string)
  | Sleep (ms : nat)
  | LogDebug (path : string) (e : exn)
  | LogInfo (path : string).

#[global] Instance event_eq_dec : EqDecision event.
Proof. solve_decision. Defined.

(** Membership in the [OSError] family, which
    [except (PermissionError, OSError)] catches. *)
Definition is_OSError (e : exn) : bool :=
  match e with
  | FileNotFoundError | PermissionError | OSError _ => true
  | _ => false
  end.

(** A permission or lock error: in the [OSError] family, and not the
    [FileNotFoundError] that the first handler takes. *)
Definition is_lock_error (e : exn) : bool :=
  match e with
  | PermissionError | OSError _ => true
  | _ => false
  end.

Section registry.
(** The outside world: whether [_.stop()] and [shutil.rmtree] raise, as
    a function of all that happened before the call.  [None] is a normal
    return. *)
Variable stop_outcome : list event → Browser → option exn.
Variable rmtree_outcome : list event → string → option exn.

(** [for attempt in range(5): try: ... except ...], run over the attempt
    numbers that are left.  A removal that does not raise falls through
    to the next attempt. *)
Fixpoint retry_loop (attempts : list nat) (b : Browser) (tr : list event)
    : list event * result () :=
  match attempts with
  | [] => (tr, Ok ())
  | attempt :: rest =>
      match config b with
      | None => retry_loop rest b tr
      | Some c =>
          if custom_data_dir c then retry_loop rest b tr
          else
            let dir := user_data_dir c in
            let tr1 := tr ++ [Rmtree dir] in
            match rmtree_outcome tr dir with
            | None => retry_loop rest b tr1
            | Some FileNotFoundError => (tr1, Ok ())
            | Some e =>
                if is_OSError e then
                  if attempt =? 4 then (tr1 ++ [LogDebug dir e], Ok ())
                  else retry_loop rest b (tr1 ++ [Sleep 150])
                else (tr1, Raise e)
            end
      end
  end.

(** [if not _.stopped: _.stop()] *)
Definition stop_if_running (b : Browser) (tr : list event)
    : list event * result () :=
  if stopped b then (tr, Ok ())
  else
    (tr ++ [Stop (pid b)],
     match stop_outcome tr b with
     | None => Ok ()
     | Some e => Raise e
     end).

(** [logger.info("successfully removed temp profile %s",
    _.config.user_data_dir)] *)
Definition log_removed (b : Browser) (tr : list event)
    : list event * result () :=
  match config b with
  | Some c => (tr ++ [LogInfo (user_data_dir c)], Ok ())
  | None => (tr, Raise AttributeError)
  end.

(** The body of [for _ in __registered__instances__]. *)
Definition teardown (b : Browser) (tr : list event)
    : list event * result () :=
  match stop_if_running b tr with
  | (tr1, Raise e) => (tr1, Raise e)
  | (tr1, Ok _) =>
      match retry_loop (seq 0 5) b tr1 with
      | (tr2, Raise e) => (tr2, Raise e)
      | (tr2, Ok _) => log_removed b tr2
      end
  end.

(** [instances] is the registry in the order in which the set iterator
    yields its members. *)
Fixpoint deconstruct_browser (instances : list Browser) (tr : list event)
    : list event * result () :=
  match instances with
  | [] => (tr, Ok ())
  | b :: rest =>
      match teardown b tr with
      | (tr1, Raise e) => (tr1, Raise e)
      | (tr1, Ok _) => deconstruct_browser rest tr1
      end
  end.
End registry.

(** What "every handle of the registry is processed" asks of a run that
    starts with an empty history: every handle that was not stopped is
    stopped, and every engine-owned directory has its removal
    attempted. *)
Definition drains_every_handle
    (stop_outcome : list event → Browser → option exn)
    (rmtree_outcome : list event → string → option exn)
    (instances : list Browser) : Prop :=
  ∀ b, b ∈ instances →
    let done := (deconstruct_browser stop_outcome rmtree_outcome instances []).1 in
    (stopped b = false → Stop (pid b) ∈ done) ∧
    (∀ c, config b = Some c → custom_data_dir c = false →
          Rmtree (user_data_dir c) ∈ done).

(** *** Sample worlds and handles *)

(** A file system in which a directory is there until it has been
    removed once. *)
Definition rmtree_once (tr : list event) (dir : string) : option exn :=
  if bool_decide (Rmtree dir ∈ tr) then Some FileNotFoundError else None.

(** The same, except that [missing] was never there. *)
Definition rmtree_missing (missing : string) (tr : list event) (dir : string)
    : option exn :=
  if bool_decide (dir = missing) then Some FileNotFoundError
  else rmtree_once tr dir.

(** A file system that keeps every directory locked. *)
Definition rmtree_locked (tr : list event) (dir : string) : option exn :=
  Some PermissionError.

(** [stop()] raises for the handle [bad] and for no other. *)
Definition stop_fails_for (bad : nat) (tr : list event) (b : Browser)
    : option exn :=
  if pid b =? bad then Some (OtherError 0) else None.

Definition stop_ok (tr : list event) (b : Browser) : option exn := None.

Definition handle_1 : Browser :=
  {| pid := 1; stopped := false;
     config := Some {| custom_data_dir := false; user_data_dir := "/tmp/p1" |} |}.

Definition handle_2 : Browser :=
  {| pid := 2; stopped := true;
     config := Some {| custom_data_dir := false; user_data_dir := "/tmp/p2" |} |}.

Definition handle_3 : Browser :=
  {| pid := 3; stopped := false;
     config := Some {| custom_data_dir := false; user_data_dir := "/tmp/p3" |} |}.

(** ** [free_port] *)

(** The socket facility of the operating system, reduced to what
    [free_port] uses.  A socket has a local address once bound and a
    backlog once listening. *)
Record sock := {
  local : option (string * Z);
  backlog : option Z
}.

Inductive syscall :=
  | SysSocket (fd : nat)
  | SysBind (fd : nat) (host : string) (port : Z)
  | SysListen (fd : nat) (n : Z)
  | SysGetsockname (fd : nat)
  | SysClose (fd : nat).

Record kernel := {
  sockets : gmap nat sock;
  calls : list syscall
}.

(** Some open socket holds [port] on [host]. *)
Definition in_use (tbl : gmap nat sock) (host : string) (port : Z) : Prop :=
  map_Exists (λ _ s, local s = Some (host, port)) tbl.

Section sockets.
(** The kernel's own choices: the descriptor of a new socket and the
    port given to a bind to port 0, both as a function of all the kernel
    has seen.  [None] is a refusal (no descriptor or no port left),
    reported as an [OSError]. *)
Variable new_fd : kernel → option nat.
Variable choose_port : kernel → string → option Z.

(** [socket.socket(socket.AF_INET, socket.SOCK_STREAM)] *)
Definition sys_socket (k : kernel) : kernel * result nat :=
  match new_fd k with
  | Some fd =>
      ({| sockets := <[fd := {| local := None; backlog := None |}]> (sockets k);
          calls := calls k ++ [SysSocket fd] |}, Ok fd)
  | None => (k, Raise (OSError 24))
  end.

(** [s.bind((host, port))]; port 0 asks the kernel for a port. *)
Definition sys_bind (fd : nat) (host : string) (port : Z) (k : kernel)
    : kernel * result () :=
  let k1 := {| sockets := sockets k;
               calls := calls k ++ [SysBind fd host port] |} in
  match sockets k !! fd with
  | None => (k1, Raise (OSError 9))
  | Some s =>
      let granted :=
        if (port =? 0)%Z then choose_port k host
        else if bool_decide (in_use (sockets k) host port) then None
             else Some port in
      match granted with
      | None => (k1, Raise (OSError 98))
      | Some p =>
          ({| sockets :=
                <[fd := {| local := Some (host, p); backlog := backlog s |}]>
                  (sockets k);
              calls := calls k1 |}, Ok ())
      end
  end.

(** [s.listen(n)] *)
Definition sys_listen (fd : nat) (n : Z) (k : kernel) : kernel * result () :=
  let k1 := {| sockets := sockets k; calls := calls k ++ [SysListen fd n] |} in
  match sockets k !! fd with
  | None => (k1, Raise (OSError 9))
  | Some s =>
      ({| sockets := <[fd := {| local := local s; backlog := Some n |}]> (sockets k);
          calls := calls k1 |}, Ok ())
  end.

(** [s.getsockname()] *)
Definition sys_getsockname (fd : nat) (k : kernel)
    : kernel * result (string * Z) :=
  let k1 := {| sockets := sockets k;
               calls := calls k ++ [SysGetsockname fd] |} in
  match sockets k !! fd with
  | Some {| local := Some a |} => (k1, Ok a)
  | _ => (k1, Raise (OSError 9))
  end.

(** [s.close()] *)
Definition sys_close (fd : nat) (k : kernel) : kernel * result () :=
  ({| sockets := delete fd (sockets k); calls := calls k ++ [SysClose fd] |},
   Ok ()).

(** Sequencing of calls that may raise. *)
Definition and_then {S A B : Type} (m : S → S * result A)
    (f : A → S → S * result B) (s : S) : S * result B :=
  match m s with
  | (s1, Ok a) => f a s1
  | (s1, Raise e) => (s1, Raise e)
  end.

(** The first three statements of [free_port]: the socket, bound and
    listening. *)
Definition listening_socket : kernel → kernel * result nat :=
  and_then sys_socket (λ free_socket,
  and_then (sys_bind free_socket "127.0.0.1" 0) (λ _,
  and_then (sys_listen free_socket 5) (λ _ k,
  (k, Ok free_socket)))).

Definition free_port : kernel → kernel * result Z :=
  and_then sys_socket (λ free_socket,
  and_then (sys_bind free_socket "127.0.0.1" 0) (λ _,
  and_then (sys_listen free_socket 5) (λ _,
  and_then (sys_getsockname free_socket) (λ name,
  and_then (sys_close free_socket) (λ _ k,
  (k, Ok name.2)))))).
End sockets.

(** *** A sample kernel *)

(** It hands out the least descriptor that is not open, and a port that
    moves on with every call it has seen. *)
Definition least_fd (k : kernel) : option nat :=
  Some (fresh (dom (sockets k))).

Definition rolling_port (k : kernel) (host : string) : option Z :=
  Some (49152 + Z.of_nat (length (calls k)))%Z.

Definition idle_kernel : kernel := {| sockets := ∅; calls := [] |}.

(** The calls that one pass over the values [vs] awaits, in order. *)
Definition requests_of (vs : list pyobj) : list request :=
  omap (λ v, match request_of v with Ok rq => Some rq | Raise _ => None end) vs.

Section serve.
Context {remote : Type}.
Variable respond : remote → request → remote * reply.

(** Awaiting a list of calls one after the other and appending the
    replies to [out], until a call fails. *)
Fixpoint serve (rqs : list request) (out : string) (s : session remote)
    : session remote * result string :=
  match rqs with
  | [] => (s, Ok out)
  | rq :: rest =>
      match await respond rq s with
      | (s1, Raise e) => (s1, Raise e)
      | (s1, Ok m) => serve rest (out +:+ m) s1
      end
  end.
End serve.

(** The concatenation of a list of texts. *)
Definition concat_text (ms : list string) : string :=
  foldr String.append "" ms.

(** What the teardown of the handle [b] may do to the outside world: stop
    it if it was running, try to remove the directory it owns, sleep for
    150 ms, report a permission or lock error on that directory, and
    write the closing log line. *)
Definition teardown_event (b : Browser) (ev : event) : Prop :=
  match ev with
  | Stop p => p = pid b ∧ stopped b = false
  | Rmtree d =>
      ∃ c, config b = Some c ∧ custom_data_dir c = false ∧
           d = user_data_dir c
  | Sleep ms =>
      ms = 150 ∧ ∃ c, config b = Some c ∧ custom_data_dir c = false
  | LogDebug d e =>
      is_lock_error e = true ∧
      ∃ c, config b = Some c ∧ custom_data_dir c = false ∧
           d = user_data_dir c
  | LogInfo d => ∃ c, config b = Some c ∧ d = user_data_dir c
  end.


(** How many events of a history satisfy [f]. *)
Definition count (f : event → bool) (tr : list event) : nat :=
  length (List.filter f tr).


(** [k] failed removal attempts on the directory [d], each followed by
    the sleep. *)
Fixpoint failed_attempts (k : nat) (d : string) : list event :=
  match k with
  | 0 => []
  | S k' => [Rmtree d; Sleep 150] ++ failed_attempts k' d
  end.

(** A file system that keeps a directory locked for the first [k]
    removal attempts on it and has lost it after that. *)
Definition rmtree_locked_for (k : nat) (tr : list event) (dir : string)
    : option exn :=
  if count (λ ev, bool_decide (ev = Rmtree dir)) tr <? k
  then Some PermissionError else Some FileNotFoundError.

(** A file system in which the removal of [bad] fails with an exception
    that is no [OSError]. *)
Definition rmtree_broken_at (bad : string) (tr : list event) (dir : string)
    : option exn :=
  if bool_decide (dir = bad) then Some (OtherError 1) else rmtree_once tr dir.

(** A handle without a configuration. *)
Definition handle_4 : Browser :=
  {| pid := 4; stopped := false; config := None |}.

(** [x] is, in the store [h], a node whose identity is not [nid]. *)
Definition other_identity (h : heap) (nid : Z) (x : nat) : bool :=
  match getattr_id h x with
  | Some (Ok j) => negb (j =? nid)%Z
  | _ => false
  end.

(** From [h] to [h'] every child list has kept, in their order, the
    children that [keep] selects. *)
Definition keeps (keep : nat → bool) (h h' : heap) : Prop :=
  ∀ a i cs, h !! a = Some (ONode i (Some cs)) →
    ∃ cs', h' !! a = Some (ONode i (Some cs')) ∧
           List.filter keep cs' = List.filter keep cs.

(** What is stored at [a] reads back, with the fuel [k], as a tree. *)
Definition stored_tree (k : nat) (h : heap) (a : nat) : Prop :=
  ∃ T, load k h a = Some T ∧ is_tree T = true.

(** The root (address 0, identity 0) has the children A (address 1,
    identity 1) and B (address 2, identity 2); B has the children
    C (address 3, identity 3) and D (address 4, identity 4). *)
Definition heap_unique : heap :=
  <[0 := ONode 0 (Some [1; 2])]> (<[1 := ONode 1 None]>
    (<[2 := ONode 2 (Some [3; 4])]> (<[3 := ONode 3 None]>
      (<[4 := ONode 4 None]> ∅)))).

(** A kernel that has no port left to give. *)
Definition no_port (k : kernel) (host : string) : option Z := None.

(** ** [Meta] *)

(** The objects the registry of [Meta] holds: classes made by
    [Meta.__new__] and instances made by [Meta.__call__].  [ident] tells
    the instances of one class apart. *)
Inductive meta_obj :=
  | ClassObj (name : string)
  | InstanceObj (class_name : string) (ident : nat).

(** [x.__name__] for a class, [type(x).__name__] for an instance. *)
Definition filed_as (o : meta_obj) : string :=
  match o with
  | ClassObj name => name
  | InstanceObj class_name _ => class_name
  end.

(** [Meta.REGISTRY], one dict for all classes. *)
Abbreviation registry := (gmap string meta_obj).

(** [Meta.__new__(mcls, name, bases, attrs)]; [type.__new__] gives the
    new class the [__name__] [name]. *)
Definition Meta_new (name : string) (REGISTRY : registry)
    : registry * meta_obj :=
  let instance := ClassObj name in
  (<[name := instance]> REGISTRY, instance).

(** What [super().__call__( *args, **kwargs)] hands back when the
    constructor of the class returns: the new object, known by the name
    of its type, and whether attributes can be set on it (they cannot
    on an object without a [__dict__]). *)
Record constructed := {
  type_name : string;
  serial : nat;
  has_dict : bool
}.

(** [Meta.__call__(self, *args, **kwargs)]; [made] is the outcome of
    [super().__call__], an exception of the constructor included. *)
Definition Meta_call (made : result constructed) (REGISTRY : registry)
    : registry * result meta_obj :=
  match made with
  | Raise e => (REGISTRY, Raise e)
  | Ok m =>
      if has_dict m then
        let instance := InstanceObj (type_name m) (serial m) in
        (<[type_name m := instance]> REGISTRY, Ok instance)
      else (REGISTRY, Raise AttributeError)
  end.

(** [Meta.get_registry()]: [dict(cls.REGISTRY)], the entries as they
    are at the time of the call. *)
Definition get_registry (REGISTRY : registry) : registry := REGISTRY.

(** What a program does with classes of this metaclass: it defines one
    or it calls one. *)
Inductive meta_step :=
  | DefineClass (name : string)
  | CallClass (made : result constructed).

Definition meta_do (REGISTRY : registry) (st : meta_step) : registry :=
  match st with
  | DefineClass name => (Meta_new name REGISTRY).1
  | CallClass made => (Meta_call made REGISTRY).1
  end.

Definition meta_run (steps : list meta_step) (REGISTRY : registry)
    : registry :=
  foldl meta_do REGISTRY steps.

(** The object a step files under the name [n], if it files one. *)
Definition files (n : string) (st : meta_step) : option meta_obj :=
  match st with
  | DefineClass name =>
      if bool_decide (name = n) then Some (ClassObj name) else None
  | CallClass (Ok m) =>
      if has_dict m && bool_decide (type_name m = n)
      then Some (InstanceObj (type_name m) (serial m)) else None
  | CallClass (Raise _) => None
  end.

(** * Properties *)

(** ** Positions and document order *)

Lemma children_at_shift p i cs :
  Forall (λ c, ∀ q, descendants_at q c = shift q <$> descendants_at [] c) cs →
  children_at descendants_at p i cs
  = shift p <$> children_at descendants_at [] i cs.
Proof.
  intros Hcs. revert i.
  induction Hcs as [|c cs Hc _ IH]; intros i; [done|].
  cbn [children_at]. rewrite fmap_cons, fmap_app, <- IH.
  rewrite (Hc (p ++ [i])), (Hc ([] ++ [i])), <- list_fmap_compose.
  unfold shift at 3. cbn. f_equal. f_equal.
  apply list_fmap_ext. intros _ [q n] _. unfold shift. cbn.
  by rewrite <- (assoc_L (++)).
Qed.

Lemma descendants_at_shift v p :
  descendants_at p v = shift p <$> descendants_at [] v.
Proof.
  revert p. induction v as [b|i c|i c cs IH] using pyobj_rose_ind;
    intros p; [done..|].
  cbn [descendants_at]. by apply children_at_shift.
Qed.

Lemma children_at_elem q n i cs :
  (q, n) ∈ children_at descendants_at [] i cs ↔
  ∃ j c, cs !! j = Some c ∧
    ((q = [i + j] ∧ n = c) ∨
     ∃ r, (r, n) ∈ descendants_at [] c ∧ q = (i + j) :: r).
Proof.
  revert i. induction cs as [|c cs IH]; intros i.
  { cbn. split; [by intros ?%elem_of_nil|by intros (j & ? & ? & _)]. }
  cbn [children_at app]. rewrite elem_of_cons, elem_of_app, IH.
  rewrite (descendants_at_shift c [i]), list_elem_of_fmap. split.
  - intros [[= -> ->]|[([r m] & [= -> ->] & Hr)|(j & d & Hj & Hq)]].
    + exists 0, c. rewrite Nat.add_0_r. by split; [|left].
    + exists 0, c. rewrite Nat.add_0_r. split; [done|]. right. by exists r.
    + exists (S j), d. replace (i + S j) with (S i + j) by lia. by split.
  - intros ([|j] & d & Hj & Hq).
    + cbn in Hj. injection Hj as <-. rewrite Nat.add_0_r in Hq.
      destruct Hq as [[-> ->]|(r & Hr & ->)]; [by left|].
      right. left. by exists (r, n).
    + right. right. exists j, d.
      replace (S i + j) with (i + S j) by lia. by split.
Qed.

Lemma descendants_at_elem v q n :
  (q, n) ∈ descendants_at [] v ↔ q ≠ [] ∧ subtree_at v q = Some n.
Proof.
  revert q n. induction v as [b|i c|i c cs IH] using pyobj_rose_ind;
    intros q n.
  - split; [by intros ?%elem_of_nil|]. by intros [? ?]; destruct q.
  - split; [by intros ?%elem_of_nil|]. by intros [? ?]; destruct q.
  - cbn [descendants_at]. rewrite children_at_elem.
    rewrite Forall_lookup in IH. split.
    + intros (j & d & Hj & [[-> ->]|(r & Hr & ->)]); cbn; rewrite Hj.
      * done.
      * apply (IH _ _ Hj) in Hr as [_ Hr]. done.
    + intros [Hq Hsub]. destruct q as [|j r]; [done|]. cbn in Hsub.
      destruct (cs !! j) as [d|] eqn:Hj; [|done].
      exists j, d. split; [done|]. destruct r as [|k r].
      * left. cbn in Hsub. by injection Hsub as ->.
      * right. exists (k :: r). split; [|done]. by apply (IH _ _ Hj).
Qed.

Lemma children_at_head q i cs :
  q ∈ (children_at descendants_at [] i cs).*1 → ∃ j r, q = (i + j) :: r.
Proof.
  intros ([q' n] & -> & Hq)%list_elem_of_fmap.
  apply children_at_elem in Hq as (j & c & _ & [[-> _]|(r & _ & ->)]);
    by eexists _, _.
Qed.

Lemma shift_paths i (l : list (path * pyobj)) :
  (shift [i] <$> l).*1 = (i ::.) <$> l.*1.
Proof. rewrite <- !list_fmap_compose. by apply list_fmap_ext. Qed.

Lemma children_at_sorted i cs :
  Forall (λ c, StronglySorted doc_before (descendants_at [] c).*1) cs →
  StronglySorted doc_before (children_at descendants_at [] i cs).*1.
Proof.
  intros Hcs. revert i.
  induction Hcs as [|c cs Hc _ IH]; intros i; [constructor|].
  cbn [children_at app]. rewrite fmap_cons, fmap_app.
  rewrite (descendants_at_shift c [i]), shift_paths. cbn [fst].
  apply StronglySorted_cons. split.
  - apply Forall_app. split; apply Forall_forall; intros q Hq.
    + apply list_elem_of_fmap in Hq as (r & -> & Hr).
      apply list_elem_of_fmap in Hr as ([r' n] & -> & Hr).
      apply descendants_at_elem in Hr as [Hr _]. cbn.
      right. split; [done|]. by destruct r'.
    + apply children_at_head in Hq as (j & r & ->). cbn. left. lia.
  - apply StronglySorted_app_2.
    + intros q1 q2 (r & -> & _)%list_elem_of_fmap
        (j & r' & ->)%children_at_head. cbn. left. lia.
    + eapply StronglySorted_fmap; [|exact Hc]. intros x y Hxy. cbn. by right.
    + apply IH.
Qed.

Lemma descendants_at_sorted v :
  StronglySorted doc_before (descendants_at [] v).*1.
Proof.
  induction v as [b|i c|i c cs IH] using pyobj_rose_ind; [constructor..|].
  by apply children_at_sorted.
Qed.

Lemma doc_before_irrefl p : ¬ doc_before p p.
Proof. induction p as [|i p IH]; cbn; [tauto|]. intros [?|[_ ?]]; [lia|tauto]. Qed.

Lemma sorted_paths_NoDup (l : list path) :
  StronglySorted doc_before l → NoDup l.
Proof.
  induction 1 as [|p l _ IH Hp]; constructor; [|done].
  intros Hin. rewrite Forall_forall in Hp.
  by apply (doc_before_irrefl p), Hp.
Qed.

Lemma sorted_paths_filter (Q : path * pyobj → Prop)
    `{!∀ x, Decision (Q x)} (l : list (path * pyobj)) :
  StronglySorted doc_before l.*1 →
  StronglySorted doc_before (filter Q l).*1.
Proof.
  induction l as [|x l IH]; [done|]. rewrite fmap_cons.
  intros [Hx Hl]%StronglySorted_cons. rewrite filter_cons.
  destruct (decide (Q x)) as [HQ|HQ]; [|by apply IH].
  rewrite fmap_cons. apply StronglySorted_cons. split; [|by apply IH].
  rewrite Forall_forall in *. intros q Hq. apply Hx.
  apply list_elem_of_fmap in Hq as (y & -> & Hy).
  apply list_elem_of_filter in Hy as [_ Hy].
  apply list_elem_of_fmap. by exists y.
Qed.

(** ** The two queries *)

Section find_properties.
Variable P : pyobj → bool.

Lemma filter_hit_shift p (l : list (path * pyobj)) :
  (filter (hit P) (shift p <$> l)).*2 = (filter (hit P) l).*2.
Proof.
  induction l as [|x l IH]; [done|].
  rewrite fmap_cons, !filter_cons.
  assert (hit P (shift p x) ↔ hit P x) as Hx by done.
  destruct (decide (hit P x)) as [Hhit|Hhit].
  - rewrite decide_True by by apply Hx. by rewrite !fmap_cons, IH.
  - rewrite decide_False by by rewrite Hx. done.
Qed.

Lemma filter_hit_nodes (l : list (path * pyobj)) :
  (filter (hit P) l).*2 = List.filter P l.*2.
Proof.
  induction l as [|x l IH]; [done|]. rewrite filter_cons, fmap_cons. cbn.
  assert (hit P x ↔ P x.2 = true) as Hx by done.
  destruct (P x.2) eqn:HP.
  - rewrite decide_True by by apply Hx. by rewrite fmap_cons, IH.
  - rewrite decide_False by (rewrite Hx; congruence). done.
Qed.

Lemma all_loop_matches cs out i :
  Forall (λ c, is_tree c = true →
               filter_recurse_all P c = Ok (matches_at P c).*2) cs →
  forallb is_tree cs = true →
  all_loop P (filter_recurse_all P) cs out
  = Ok (out ++ (filter (hit P) (children_at descendants_at [] i cs)).*2).
Proof.
  intros Hcs. revert out i.
  induction Hcs as [|c cs Hc _ IH]; intros out i Htree.
  { cbn. by rewrite (right_id_L [] (++)). }
  cbn in Htree. apply andb_true_iff in Htree as [Hct Hrest].
  cbn [all_loop children_at app]. rewrite (Hc Hct), (IH _ (S i) Hrest).
  rewrite filter_cons, filter_app, (descendants_at_shift c [i]).
  assert (hit P ([i], c) ↔ P c = true) as Hhit by done.
  destruct (P c) eqn:HPc;
    [rewrite decide_True by by apply Hhit
    |rewrite decide_False by (rewrite Hhit; congruence)];
    rewrite ?fmap_cons, fmap_app, filter_hit_shift; unfold matches_at;
    cbn [snd]; by rewrite <- ?(assoc_L (++)).
Qed.

Lemma filter_recurse_all_matches T :
  is_tree T = true → filter_recurse_all P T = Ok (matches_at P T).*2.
Proof.
  induction T as [b|i c|i c cs IH] using pyobj_rose_ind; intros Htree;
    [done..|].
  cbn in Htree. cbn [filter_recurse_all].
  by rewrite (all_loop_matches cs [] 0 IH Htree).
Qed.

Lemma subtree_at_is_tree T q n :
  is_tree T = true → subtree_at T q = Some n → is_tree n = true.
Proof.
  revert T. induction q as [|i q IH]; intros T Htree Hsub; cbn in Hsub.
  { by injection Hsub as <-. }
  destruct T as [j c [cs|]|b]; try done.
  destruct (cs !! i) as [d|] eqn:Hi; [|done].
  apply (IH d); [|done]. cbn in Htree.
  apply Is_true_true, forallb_True in Htree.
  rewrite Forall_lookup in Htree. by apply Is_true_true, (Htree i).
Qed.

Lemma is_tree_truthy n : is_tree n = true → truthy n = true.
Proof. by destruct n. Qed.

Lemma matches_at_truthy T n l :
  is_tree T = true → (matches_at P T).*2 = n :: l → truthy n = true.
Proof.
  intros Htree Hm. apply is_tree_truthy.
  assert (n ∈ (matches_at P T).*2) as Hn by (rewrite Hm; left).
  apply list_elem_of_fmap in Hn as ([q m] & -> & Hq).
  apply list_elem_of_filter in Hq as [_ Hq].
  apply descendants_at_elem in Hq as [_ Hq].
  by apply (subtree_at_is_tree T q).
Qed.

Lemma first_loop_matches cs i :
  Forall (λ c, is_tree c = true →
               filter_recurse P c = Ok (head (matches_at P c).*2)) cs →
  forallb is_tree cs = true →
  first_loop P (filter_recurse P) cs
  = Ok (head (filter (hit P) (children_at descendants_at [] i cs)).*2).
Proof.
  intros Hcs. revert i.
  induction Hcs as [|c cs Hc _ IH]; intros i Htree; [done|].
  cbn in Htree. apply andb_true_iff in Htree as [Hct Hrest].
  cbn [first_loop children_at app].
  rewrite filter_cons, filter_app, (descendants_at_shift c [i]).
  assert (hit P ([i], c) ↔ P c = true) as Hhit by done.
  destruct (P c) eqn:HPc.
  { by rewrite decide_True by by apply Hhit. }
  rewrite decide_False by (rewrite Hhit; congruence).
  rewrite (Hc Hct), fmap_app, filter_hit_shift.
  fold (matches_at P c).
  destruct (matches_at P c).*2 as [|r l] eqn:Hm; cbn [head hd_error app].
  - by apply IH.
  - by rewrite (matches_at_truthy c r l Hct Hm).
Qed.

Lemma filter_recurse_matches T :
  is_tree T = true → filter_recurse P T = Ok (head (matches_at P T).*2).
Proof.
  induction T as [b|i c|i c cs IH] using pyobj_rose_ind; intros Htree;
    [done..|].
  cbn in Htree. cbn [filter_recurse].
  by rewrite (first_loop_matches cs 0 IH Htree).
Qed.

Lemma matches_at_elem T q n :
  (q, n) ∈ matches_at P T ↔
  q ≠ [] ∧ subtree_at T q = Some n ∧ P n = true.
Proof.
  unfold matches_at. rewrite list_elem_of_filter, descendants_at_elem.
  unfold hit. cbn. tauto.
Qed.

Lemma matches_at_sorted T :
  StronglySorted doc_before (matches_at P T).*1.
Proof. apply sorted_paths_filter, descendants_at_sorted. Qed.
End find_properties.

(** C3.  On every tree [T] and for every predicate [P],
    [filter_recurse_all] returns the nodes of the strict subtree of [T]
    (the document-order list [descendants T], which leaves out [T]
    itself) that satisfy [P], in that order; [filter_recurse] returns the
    first node of that list, and returns [None] exactly when the list is
    empty.  The list is free of repetition: it is read off a sequence
    [hits] of positions which holds a position exactly when it is not
    the root's and its node satisfies [P], which is strictly increasing
    in document order, and in which no position occurs twice. *)
Theorem find_all_and_first_agree (T : pyobj) (P : pyobj → bool) :
  is_tree T = true →
  filter_recurse_all P T = Ok (List.filter P (descendants T)) ∧
  filter_recurse P T = Ok (head (List.filter P (descendants T))) ∧
  (filter_recurse P T = Ok None ↔ filter_recurse_all P T = Ok []) ∧
  ∃ hits : list (path * pyobj),
    List.filter P (descendants T) = hits.*2 ∧
    (∀ q n, (q, n) ∈ hits ↔
            q ≠ [] ∧ subtree_at T q = Some n ∧ P n = true) ∧
    StronglySorted doc_before hits.*1 ∧
    NoDup hits.*1.
Proof.
  intros Htree.
  assert (List.filter P (descendants T) = (matches_at P T).*2) as Hm.
  { unfold descendants, matches_at. by rewrite filter_hit_nodes. }
  rewrite (filter_recurse_all_matches P T Htree).
  rewrite (filter_recurse_matches P T Htree), Hm.
  split_and!; try done.
  - destruct (matches_at P T).*2; split; intros [=]; done.
  - exists (matches_at P T). split_and!; try done.
    + apply matches_at_elem.
    + apply matches_at_sorted.
    + apply sorted_paths_NoDup, matches_at_sorted.
Qed.

Lemma find_all_and_first_agree_witness :
  filter_recurse_all (id_at_least 2) sample_tree
  = Ok (List.filter (id_at_least 2) (descendants sample_tree)) ∧
  filter_recurse (id_at_least 2) sample_tree
  = Ok (head (List.filter (id_at_least 2) (descendants sample_tree))) ∧
  (filter_recurse (id_at_least 2) sample_tree = Ok None ↔
   filter_recurse_all (id_at_least 2) sample_tree = Ok []) ∧
  ∃ hits : list (path * pyobj),
    List.filter (id_at_least 2) (descendants sample_tree) = hits.*2 ∧
    (∀ q n, (q, n) ∈ hits ↔
            q ≠ [] ∧ subtree_at sample_tree q = Some n ∧
            id_at_least 2 n = true) ∧
    StronglySorted doc_before hits.*1 ∧
    NoDup hits.*1.
Proof.
  apply (find_all_and_first_agree sample_tree (id_at_least 2)).
  reflexivity.
Defined.

(** On the sample tree: the matches in document order, and the first of
    them. *)
Example find_on_sample_tree :
  filter_recurse_all (id_at_least 2) sample_tree
  = Ok [Node 3 Element None; Node 4 CdpNode (Some []); Node 2 Element None] ∧
  filter_recurse (id_at_least 2) sample_tree = Ok (Some (Node 3 Element None)) ∧
  filter_recurse (id_at_least 5) sample_tree = Ok None ∧
  filter_recurse_all (id_at_least 5) sample_tree = Ok [].
Proof. by vm_compute. Qed.

(** A value without [.children] below the root: the predicate is applied
    to it first, and the recursive call on it then raises, unless the
    first-match query has returned before. *)
Example find_meets_opaque_child :
  filter_recurse_all (id_at_least 2)
    (Node 0 CdpNode (Some [Opaque true])) = Raise no_children_attr ∧
  filter_recurse (λ _, true)
    (Node 0 CdpNode (Some [Opaque true])) = Ok (Some (Opaque true)).
Proof. by vm_compute. Qed.

(** ** Serialisation *)

Lemma append_empty_r (t : string) : t +:+ "" = t.
Proof. induction t as [|a t IH]; [done|]. by rewrite <- IH at 2. Qed.

Lemma append_assoc (t u v : string) : (t +:+ u) +:+ v = t +:+ u +:+ v.
Proof.
  induction t as [|a t IH]; [done|].
  change (String a ((t +:+ u) +:+ v) = String a (t +:+ u +:+ v)).
  by rewrite IH.
Qed.

Section serialize_properties.
Context {remote : Type}.
Variable respond : remote → request → remote * reply.

Lemma html_from_tree_childless c s :
  childless c = true → html_from_tree respond c s = (s, Ok "").
Proof. by destruct c as [i k [[|]|]|]. Qed.

Lemma await_eq rq p p' t log lat m :
  respond p rq = (p', {| latency := lat; body := m |}) →
  await respond rq {| peer := p; clock := t; awaited := log |}
  = ({| peer := p'; clock := t + lat; awaited := log ++ [(rq, m)] |}, m).
Proof. unfold await. cbn. by intros ->. Qed.
End serialize_properties.

(** C6.  [html_from_tree] on a tree without children returns the empty
    string and awaits nothing.  On a root whose three children have no
    children of their own, it awaits the three children's markup one
    after the other, in document order, and returns the concatenation
    first ++ second ++ third, whatever the latencies [l1], [l2], [l3] of
    the three replies are. *)
Theorem serialize_depth_one {remote : Type}
    (respond : remote → request → remote * reply) :
  (∀ i c kids s,
     kids = None ∨ kids = Some [] →
     html_from_tree respond (Node i c kids) s = (s, Ok "")) ∧
  (∀ i c c1 c2 c3 rq1 rq2 rq3 p0 p1 p2 p3 l1 l2 l3 m1 m2 m3 t0 log0,
     childless c1 = true → childless c2 = true → childless c3 = true →
     request_of c1 = Ok rq1 → request_of c2 = Ok rq2 →
     request_of c3 = Ok rq3 →
     respond p0 rq1 = (p1, {| latency := l1; body := Ok m1 |}) →
     respond p1 rq2 = (p2, {| latency := l2; body := Ok m2 |}) →
     respond p2 rq3 = (p3, {| latency := l3; body := Ok m3 |}) →
     html_from_tree respond (Node i c (Some [c1; c2; c3]))
       {| peer := p0; clock := t0; awaited := log0 |}
     = ({| peer := p3; clock := t0 + l1 + l2 + l3;
           awaited := log0 ++ [(rq1, Ok m1); (rq2, Ok m2); (rq3, Ok m3)] |},
        Ok (m1 +:+ m2 +:+ m3))).
Proof.
  split.
  - by intros i c kids s [-> | ->].
  - intros i c c1 c2 c3 rq1 rq2 rq3 p0 p1 p2 p3 l1 l2 l3 m1 m2 m3 t0 log0
      H1 H2 H3 Hq1 Hq2 Hq3 Hr1 Hr2 Hr3.
    cbn [html_from_tree html_loop]. unfold own_markup.
    rewrite Hq1, (await_eq _ _ _ _ _ _ _ _ Hr1), html_from_tree_childless by done.
    rewrite Hq2, (await_eq _ _ _ _ _ _ _ _ Hr2), html_from_tree_childless by done.
    rewrite Hq3, (await_eq _ _ _ _ _ _ _ _ Hr3), html_from_tree_childless by done.
    rewrite !append_empty_r, <- !(assoc_L (++)).
    change ("" +:+ m1) with m1. by rewrite append_assoc.
Qed.

Lemma serialize_depth_one_witness :
  (∀ i c kids s,
     kids = None ∨ kids = Some [] →
     html_from_tree speeding_up (Node i c kids) s = (s, Ok "")) ∧
  html_from_tree speeding_up three_leaves
    {| peer := 0; clock := 0; awaited := [] |}
  = ({| peer := 3; clock := 0 + 30 + 20 + 10;
        awaited := [] ++ [(ElementGetHtml 1, Ok "<a/>");
                          (GetOuterHtml 2, Ok "<b/>");
                          (GetOuterHtml 3, Ok "<c/>")] |},
     Ok ("<a/>" +:+ "<b/>" +:+ "<c/>")).
Proof.
  split.
  - apply (proj1 (serialize_depth_one speeding_up)).
  - apply (proj2 (serialize_depth_one speeding_up) 0%Z CdpNode
             (Node 1 Element None) (Node 2 CdpNode None)
             (Node 3 CdpNode (Some []))
             (ElementGetHtml 1) (GetOuterHtml 2) (GetOuterHtml 3)
             0 1 2 3 30 20 10 "<a/>" "<b/>" "<c/>" 0 []); reflexivity.
Defined.

Lemma failure_surfaces_nil r : failure_surfaces [] r.
Proof. by intros rq e ?%elem_of_nil. Qed.

Lemma failure_surfaces_app new1 new2 a r :
  failure_surfaces new1 (Ok a) → failure_surfaces new2 r →
  failure_surfaces (new1 ++ new2) r.
Proof.
  intros H1 H2 rq e [Hin|Hin]%elem_of_app.
  - by destruct (H1 rq e Hin) as [? _].
  - destruct (H2 rq e Hin) as [-> [pre ->]]. split; [done|].
    exists (new1 ++ pre). by rewrite (assoc_L (++)).
Qed.

Section serialize_failures.
Context {remote : Type}.
Variable respond : remote → request → remote * reply.

Lemma await_traced rq : traced (await respond rq).
Proof.
  intros s. unfold await. destruct (respond (peer s) rq) as [p' rp]. cbn.
  exists [(rq, body rp)]. split; [done|].
  intros rq' e [= -> Hb]%list_elem_of_singleton. rewrite <- Hb.
  split; [done|]. by exists [].
Qed.

Lemma own_markup_traced c : traced (own_markup respond c).
Proof.
  unfold own_markup. destruct (request_of c) as [rq|e].
  - apply await_traced.
  - intros s. exists []. cbn. rewrite (right_id_L [] (++)).
    split; [done|apply failure_surfaces_nil].
Qed.

Lemma html_loop_traced rec cs out :
  Forall (λ c, traced (rec c)) cs →
  traced (html_loop respond rec cs out).
Proof.
  intros Hcs. revert out.
  induction Hcs as [|c cs Hc _ IH]; intros out s.
  { exists []. cbn. rewrite (right_id_L [] (++)).
    split; [done|apply failure_surfaces_nil]. }
  cbn [html_loop].
  destruct (own_markup_traced c s) as (new1 & Hlog1 & Hf1).
  destruct (own_markup respond c s) as [s1 [own|e1]]; cbn in Hlog1, Hf1;
    [|by exists new1].
  destruct (Hc s1) as (new2 & Hlog2 & Hf2).
  destruct (rec c s1) as [s2 [sub|e2]]; cbn in Hlog2, Hf2.
  - destruct (IH ((out +:+ own) +:+ sub) s2) as (new3 & Hlog3 & Hf3).
    exists (new1 ++ new2 ++ new3). split.
    + by rewrite Hlog3, Hlog2, Hlog1, <- !(assoc_L (++)).
    + eauto using failure_surfaces_app.
  - exists (new1 ++ new2). cbn. split.
    + by rewrite Hlog2, Hlog1, <- !(assoc_L (++)).
    + eauto using failure_surfaces_app.
Qed.

Lemma html_from_tree_traced tree : traced (html_from_tree respond tree).
Proof.
  induction tree as [b|i c|i c cs IH] using pyobj_rose_ind.
  - intros s. exists []. cbn. rewrite (right_id_L [] (++)).
    split; [done|apply failure_surfaces_nil].
  - intros s. exists []. cbn. rewrite (right_id_L [] (++)).
    split; [done|apply failure_surfaces_nil].
  - cbn [html_from_tree]. by apply html_loop_traced.
Qed.
End serialize_failures.

(** C7.  Whatever the remote side does: if one of the calls awaited
    during [html_from_tree] fails with an exception [e], then the whole
    call raises [e] and returns no text, and the failed call is the last
    one it awaited. *)
Theorem serialize_propagates_failure {remote : Type}
    (respond : remote → request → remote * reply)
    (tree : pyobj) (s : session remote) :
  ∃ new,
    awaited (html_from_tree respond tree s).1 = awaited s ++ new ∧
    ∀ rq e, (rq, Raise e) ∈ new →
      (html_from_tree respond tree s).2 = Raise e ∧
      ∃ pre, new = pre ++ [(rq, Raise e)].
Proof. apply html_from_tree_traced. Qed.

(** The second of three calls fails: the exception comes out, the third
    call is never made and no text is returned. *)
Example serialize_second_call_fails :
  html_from_tree failing_second three_leaves
    {| peer := 0; clock := 0; awaited := [] |}
  = ({| peer := 2; clock := 20;
        awaited := [(ElementGetHtml 1, Ok "<a/>");
                    (GetOuterHtml 2, Raise (OtherError 7))] |},
     Raise (OtherError 7)).
Proof. by vm_compute. Qed.

(** ** Values without [.children] *)

(** C8.  A value that has no [.children] attribute makes each of
    [filter_recurse], [filter_recurse_all], [html_from_tree] and
    [remove_from_tree] raise the [TypeError] of the module at once:
    nothing is awaited, the store is left as it was, and no [None],
    empty list or empty string is returned. *)
Theorem value_without_children_is_rejected (v : pyobj) :
  hasattr_children v = false →
  (∀ P, filter_recurse P v = Raise no_children_attr) ∧
  (∀ P, filter_recurse_all P v = Raise no_children_attr) ∧
  (∀ (remote : Type) (respond : remote → request → remote * reply) s,
     html_from_tree respond v s = (s, Raise no_children_attr)) ∧
  (∀ node_eq fuel (h : heap) tree node b,
     h !! tree = Some (OOpaque b) →
     remove_from_tree node_eq fuel h tree node
     = Some (h, Raise no_children_attr)).
Proof.
  intros Hv. destruct v as [i c kids|b]; [done|]. split_and!; try done.
  intros node_eq fuel h tree node b' Ht. destruct fuel; cbn; by rewrite Ht.
Qed.

Lemma value_without_children_is_rejected_witness :
  (∀ P, filter_recurse P (Opaque true) = Raise no_children_attr) ∧
  (∀ P, filter_recurse_all P (Opaque true) = Raise no_children_attr) ∧
  (∀ (remote : Type) (respond : remote → request → remote * reply) s,
     html_from_tree respond (Opaque true) s = (s, Raise no_children_attr)) ∧
  (∀ node_eq fuel (h : heap) tree node b,
     h !! tree = Some (OOpaque b) →
     remove_from_tree node_eq fuel h tree node
     = Some (h, Raise no_children_attr)).
Proof.
  apply (value_without_children_is_rejected (Opaque true)). reflexivity.
Defined.

(** ** Removal *)

Section remove_properties.
Variable node_eq : heap → nat → nat → bool.

(** The loop stops when the index has reached the end of the list as it
    is now. *)
Lemma remove_loop_stop rec n h tree node i tid cs :
  h !! tree = Some (ONode tid (Some cs)) → cs !! i = None →
  remove_loop node_eq rec n h tree node i = Some (h, Ok ()).
Proof. intros Ht Hi. destruct n; cbn; by rewrite Ht, Hi. Qed.

(** One step on a child whose identity differs from the target's. *)
Lemma remove_loop_keep rec n h tree node i tid cs child cid nid :
  h !! tree = Some (ONode tid (Some cs)) → cs !! i = Some child →
  getattr_id h child = Some (Ok cid) → getattr_id h node = Some (Ok nid) →
  cid ≠ nid →
  remove_loop node_eq rec (S n) h tree node i
  = match rec h child with
    | None => None
    | Some (h2, Raise e) => Some (h2, Raise e)
    | Some (h2, Ok _) => remove_loop node_eq rec n h2 tree node (S i)
    end.
Proof.
  intros Ht Hi Hc Hn Hne. cbn [remove_loop]. rewrite Ht, Hi, Hc, Hn.
  by rewrite (proj2 (Z.eqb_neq cid nid) Hne).
Qed.

(** One step on a child that has the target's identity. *)
Lemma remove_loop_drop rec n h tree node i tid cs cs' child nid :
  h !! tree = Some (ONode tid (Some cs)) → cs !! i = Some child →
  getattr_id h child = Some (Ok nid) → getattr_id h node = Some (Ok nid) →
  list_remove node_eq h child cs = Some cs' →
  remove_loop node_eq rec (S n) h tree node i
  = match rec (<[tree := ONode tid (Some cs')]> h) child with
    | None => None
    | Some (h2, Raise e) => Some (h2, Raise e)
    | Some (h2, Ok _) => remove_loop node_eq rec n h2 tree node (S i)
    end.
Proof.
  intros Ht Hi Hc Hn Hrm. cbn [remove_loop]. rewrite Ht, Hi, Hc, Hn.
  by rewrite Z.eqb_refl, Hrm.
Qed.

(** [l.remove(x)] takes out the item at the index of [x] when no earlier
    item has the identity of [x]. *)
Lemma list_remove_at h l i x ix kx :
  eq_respects_id node_eq →
  l !! i = Some x → h !! x = Some (ONode ix kx) →
  (∀ j y, j < i → l !! j = Some y →
          ∃ iy ky, h !! y = Some (ONode iy ky) ∧ iy ≠ ix) →
  list_remove node_eq h x l = Some (delete i l).
Proof.
  intros Hresp. revert i. induction l as [|y l IH]; intros i Hi Hx Hbefore;
    [done|].
  destruct i as [|i]; cbn in Hi.
  { injection Hi as ->. cbn. by rewrite Nat.eqb_refl. }
  destruct (Hbefore 0 y) as (iy & ky & Hy & Hne); [lia|done|].
  cbn [list_remove].
  assert ((y =? x) || node_eq h y x = false) as ->.
  { apply orb_false_iff. split.
    - apply Nat.eqb_neq. intros ->. congruence.
    - destruct (node_eq h y x) eqn:E; [|done].
      by apply (Hresp h y x iy ix ky kx Hy Hx) in E. }
  rewrite (IH i Hi Hx); [done|].
  intros j z Hj Hz. apply (Hbefore (S j) z); [lia|done].
Qed.

(** What [remove_from_tree] returns is the address it was given. *)
Lemma remove_from_tree_returns_tree fuel h tree node h' r :
  remove_from_tree node_eq fuel h tree node = Some (h', Ok r) → r = tree.
Proof.
  destruct fuel as [|fuel]; cbn [remove_from_tree];
    destruct (h !! tree) as [[tid [[|c cs]|]|b]|]; try congruence.
  destruct (remove_loop _ _ _ _ _ _ _) as [[h2 [[]|e]]|]; congruence.
Qed.

Lemma remove_from_tree_leaf fuel h tree node tid :
  h !! tree = Some (ONode tid None) →
  remove_from_tree node_eq fuel h tree node = Some (h, Ok tree).
Proof. intros Ht. destruct fuel; cbn; by rewrite Ht. Qed.

Lemma remove_from_tree_inner fuel h tree node tid c cs :
  h !! tree = Some (ONode tid (Some (c :: cs))) →
  remove_from_tree node_eq (S fuel) h tree node
  = match remove_loop node_eq
            (λ h' c', remove_from_tree node_eq fuel h' c' node)
            (length (c :: cs)) h tree node 0 with
    | None => None
    | Some (h', Raise e) => Some (h', Raise e)
    | Some (h', Ok _) => Some (h', Ok tree)
    end.
Proof. intros Ht. cbn [remove_from_tree]. by rewrite Ht. Qed.

(** A loop over children none of which has the target's identity leaves
    the store as it was, provided the recursive calls do. *)
Lemma remove_loop_unchanged rec n h tree node i tid cs nid h' r :
  h !! tree = Some (ONode tid (Some cs)) →
  getattr_id h node = Some (Ok nid) →
  ¬ has_child_with_id h tree nid →
  (∀ c h2 r2, c ∈ cs → rec h c = Some (h2, r2) → h2 = h) →
  remove_loop node_eq rec n h tree node i = Some (h', r) → h' = h.
Proof.
  intros Ht Hn Hnone Hrec. revert i.
  induction n as [|n IH]; intros i; cbn [remove_loop]; rewrite Ht;
    destruct (cs !! i) as [child|] eqn:Hi; try congruence.
  unfold getattr_id at 1. rewrite Hn.
  destruct (h !! child) as [[cid k|b]|] eqn:Hc; try congruence.
  assert (child ∈ cs) as Hin by by eapply list_elem_of_lookup_2.
  destruct (Z.eqb_spec cid nid) as [->|Hne].
  { destruct Hnone. by exists tid, cs, child, k. }
  destruct (rec h child) as [[h2 [r2|e]]|] eqn:Hrun; try congruence.
  - rewrite (Hrec _ _ _ Hin Hrun). apply IH.
  - intros [= <- _]. by apply (Hrec _ _ _ Hin Hrun).
Qed.

(** When no node of the tree has a direct child with the target's
    identity, [remove_from_tree] leaves the store, and so the tree, as
    it was. *)
Lemma remove_from_tree_absent fuel h tree node nid h' r :
  getattr_id h node = Some (Ok nid) →
  (∀ a, reaches h tree a → ¬ has_child_with_id h a nid) →
  remove_from_tree node_eq fuel h tree node = Some (h', r) → h' = h.
Proof.
  intros Hn. revert tree h' r.
  induction fuel as [|fuel IH]; intros tree h' r Habsent;
    cbn [remove_from_tree];
    destruct (h !! tree) as [[tid [[|c cs]|]|b]|] eqn:Ht; try congruence.
  destruct (remove_loop _ _ _ _ _ _ _) as [[h2 r2]|] eqn:Hloop;
    [|congruence].
  assert (h2 = h) as ->.
  { eapply (remove_loop_unchanged _ _ h tree node 0 tid (c :: cs) nid h2 r2
              Ht Hn); [| |exact Hloop].
    - apply Habsent. constructor.
    - intros d h3 r3 Hd. apply IH. intros a Ha. apply Habsent.
      clear -Ht Hd Ha. induction Ha as [|a i ds e Ha IHa Hlk He].
      + by eapply reaches_child; [constructor|..].
      + by eapply reaches_child. }
  destruct r2; congruence.
Qed.

(** The loop over children that all are nodes, none with the target's
    identity: every recursive call returns, and so does the loop. *)
Lemma remove_loop_absent rec n h tree node i tid cs nid :
  h !! tree = Some (ONode tid (Some cs)) →
  getattr_id h node = Some (Ok nid) →
  ¬ has_child_with_id h tree nid →
  (∀ c, c ∈ cs → (∃ cid k, h !! c = Some (ONode cid k)) ∧
                 rec h c = Some (h, Ok c)) →
  length cs ≤ n + i →
  remove_loop node_eq rec n h tree node i = Some (h, Ok ()).
Proof.
  intros Ht Hn Hnone Hkids. revert i.
  induction n as [|n IH]; intros i Hlen;
    destruct (cs !! i) as [child|] eqn:Hi;
    try by eapply remove_loop_stop.
  { apply lookup_lt_Some in Hi. lia. }
  assert (child ∈ cs) as Hin by by eapply list_elem_of_lookup_2.
  destruct (Hkids child Hin) as ((cid & k & Hc) & Hrec).
  assert (cid ≠ nid) as Hne.
  { intros ->. apply Hnone. by exists tid, cs, child, k. }
  rewrite (remove_loop_keep rec n h tree node i tid cs child cid nid);
    [|done|done|by unfold getattr_id; rewrite Hc|done|done].
  rewrite Hrec. apply IH. lia.
Qed.

Lemma load_is_tree_node k h a T :
  load k h a = Some T → is_tree T = true →
  ∃ i kids, h !! a = Some (ONode i kids).
Proof.
  destruct k as [|k]; [done|]. cbn.
  destruct (h !! a) as [[i kids|b]|]; [by eauto| |done].
  by intros [= <-].
Qed.

(** On a stored tree none of whose nodes has a direct child with the
    target's identity, [remove_from_tree] returns, returns the address it
    was given, and leaves the store as it was. *)
Lemma remove_from_tree_absent_total k h tree node T nid :
  load k h tree = Some T → is_tree T = true →
  getattr_id h node = Some (Ok nid) →
  (∀ a, reaches h tree a → ¬ has_child_with_id h a nid) →
  remove_from_tree node_eq k h tree node = Some (h, Ok tree).
Proof.
  intros Hload Htree Hn. revert tree T Hload Htree.
  induction k as [|k IH]; intros tree T Hload Htree Habsent; [done|].
  cbn in Hload.
  destruct (h !! tree) as [[tid [cs|]|b]|] eqn:Ht; try done.
  2:{ by eapply remove_from_tree_leaf. }
  2:{ injection Hload as <-. done. }
  destruct (mapM (load k h) cs) as [kids|] eqn:Hkids; [|done].
  injection Hload as <-. cbn in Htree.
  apply mapM_Some_1 in Hkids.
  apply Is_true_true, forallb_True in Htree.
  destruct cs as [|c cs]. { cbn. by rewrite Ht. }
  rewrite (remove_from_tree_inner _ _ _ _ tid c cs Ht).
  rewrite (remove_loop_absent _ _ h tree node 0 tid (c :: cs) nid);
    [done|done|done| | |lia].
  - apply Habsent. constructor.
  - intros d Hd. apply list_elem_of_lookup_1 in Hd as [j Hj].
    destruct (Forall2_lookup_l _ _ _ _ _ Hkids Hj) as (Td & HTd & Hld).
    assert (is_tree Td = true) as Htd.
    { rewrite Forall_lookup in Htree. by apply Is_true_true, (Htree j). }
    destruct (load_is_tree_node _ _ _ _ Hld Htd) as (cid & kd & Hd).
    split.
    + by eauto.
    + apply (IH d Td Hld Htd). intros a Ha. apply Habsent.
      assert (d ∈ c :: cs) as Hin by by eapply list_elem_of_lookup_2.
      clear -Ht Hin Ha. induction Ha as [|a i ds e Ha IHa Hlk He].
      * by eapply reaches_child; [constructor|..].
      * by eapply reaches_child.
Qed.
End remove_properties.

(** *** [remove_from_tree] returns on every stored tree *)

Lemma obj_shrinks_refl o : obj_shrinks o o.
Proof. by destruct o as [i [cs|]|b]. Qed.

Lemma obj_shrinks_trans o1 o2 o3 :
  obj_shrinks o1 o2 → obj_shrinks o2 o3 → obj_shrinks o1 o3.
Proof.
  destruct o1 as [i1 [cs1|]|b1], o2 as [i2 [cs2|]|b2], o3 as [i3 [cs3|]|b3];
    cbn; try congruence; try (by intros [] ?); try (by intros ? []).
  intros [-> H12] [-> H23]. split; [done|]. by etrans.
Qed.

Lemma shrinks_refl h : shrinks h h.
Proof. intros a o Ho. exists o. split; [done|apply obj_shrinks_refl]. Qed.

Lemma shrinks_trans h1 h2 h3 : shrinks h1 h2 → shrinks h2 h3 → shrinks h1 h3.
Proof.
  intros H12 H23 a o Ho.
  destruct (H12 a o Ho) as (o2 & Ho2 & Hs2).
  destruct (H23 a o2 Ho2) as (o3 & Ho3 & Hs3).
  exists o3. split; [done|]. by eapply obj_shrinks_trans.
Qed.

Lemma shrinks_insert h tree tid cs cs' :
  h !! tree = Some (ONode tid (Some cs)) → cs' `sublist_of` cs →
  shrinks h (<[tree := ONode tid (Some cs')]> h).
Proof.
  intros Ht Hsub a o Ho. destruct (decide (a = tree)) as [->|Hne].
  - rewrite lookup_insert_eq. eexists. split; [done|].
    rewrite Ht in Ho. injection Ho as <-. by cbn.
  - rewrite lookup_insert_ne by done. exists o.
    split; [done|apply obj_shrinks_refl].
Qed.

Lemma shrinks_getattr_id h h' a :
  shrinks h h' → is_Some (h !! a) → getattr_id h' a = getattr_id h a.
Proof.
  intros Hs [o Ho]. destruct (Hs a o Ho) as (o' & Ho' & Hoo').
  unfold getattr_id. rewrite Ho, Ho'.
  destruct o as [i [cs|]|b], o' as [i' [cs'|]|b']; cbn in Hoo';
    try congruence. by destruct Hoo' as [-> _].
Qed.

Lemma load_is_Some_lookup k h a : is_Some (load k h a) → is_Some (h !! a).
Proof.
  destruct k as [|k]; cbn; [by intros [? ?]|].
  destruct (h !! a); [by eauto|by intros [? ?]].
Qed.

Lemma shrinks_load k h h' a :
  shrinks h h' → is_Some (load k h a) → is_Some (load k h' a).
Proof.
  intros Hs. revert a. induction k as [|k IH]; intros a; [done|]. cbn.
  destruct (h !! a) as [o|] eqn:Ho; [|by intros [? ?]].
  destruct (Hs a o Ho) as (o' & -> & Hoo').
  destruct o as [i [cs|]|b], o' as [i' [cs'|]|b']; cbn in Hoo';
    try congruence; try by eauto.
  destruct Hoo' as [-> Hsub]. rewrite !fmap_is_Some, !mapM_is_Some.
  intros Hall. apply Forall_forall. intros c Hc. cbn. apply IH.
  rewrite Forall_forall in Hall. apply Hall. by eapply sublist_subseteq.
Qed.

Section remove_shrinks.
Variable node_eq : heap → nat → nat → bool.

Lemma list_remove_sublist h x l l' :
  list_remove node_eq h x l = Some l' →
  l' `sublist_of` l ∧ length l = S (length l').
Proof.
  revert l'. induction l as [|y l IH]; intros l'; cbn; [done|].
  destruct ((y =? x) || node_eq h y x).
  - intros [= <-]. split; [by apply sublist_cons|done].
  - destruct (list_remove node_eq h x l) as [l2|]; [|done].
    intros [= <-]. destruct (IH l2 eq_refl) as [Hsub Hlen].
    split; [by apply sublist_skip|]. cbn. by rewrite Hlen.
Qed.

Lemma list_remove_is_Some h x l :
  x ∈ l → is_Some (list_remove node_eq h x l).
Proof.
  induction 1 as [x l|x y l _ IH]; cbn.
  - rewrite Nat.eqb_refl. by eexists.
  - destruct ((y =? x) || node_eq h y x); [by eexists|].
    destruct IH as [l' ->]. by eexists.
Qed.

Lemma remove_loop_shrinks rec n h tree node i h' r :
  (∀ h1 c h2 r2, rec h1 c = Some (h2, r2) → shrinks h1 h2) →
  remove_loop node_eq rec n h tree node i = Some (h', r) → shrinks h h'.
Proof.
  intros Hrec. revert h i.
  induction n as [|n IH]; intros h i; cbn [remove_loop];
    destruct (h !! tree) as [[tid [cs|]|b]|] eqn:Ht; try done;
    destruct (cs !! i) as [child|] eqn:Hi; try done;
    try (intros [= <- _]; apply shrinks_refl).
  destruct (getattr_id h child) as [[cid|e]|]; try done;
    try (intros [= <- _]; apply shrinks_refl).
  destruct (getattr_id h node) as [[nid|e]|]; try done;
    try (intros [= <- _]; apply shrinks_refl).
  destruct (cid =? nid)%Z.
  - destruct (list_remove node_eq h child cs) as [cs'|] eqn:Hrm;
      [|intros [= <- _]; apply shrinks_refl].
    destruct (rec _ child) as [[h2 [r2|e]]|] eqn:Hrun; [| |done].
    + intros Hloop. eapply shrinks_trans; [|eapply shrinks_trans].
      * eapply shrinks_insert; [done|]. by eapply list_remove_sublist.
      * by eapply Hrec.
      * by eapply IH.
    + intros [= <- _]. eapply shrinks_trans; [|by eapply Hrec].
      eapply shrinks_insert; [done|]. by eapply list_remove_sublist.
  - destruct (rec h child) as [[h2 [r2|e]]|] eqn:Hrun; [| |done].
    + intros Hloop. eapply shrinks_trans; [by eapply Hrec|by eapply IH].
    + intros [= <- _]. by eapply Hrec.
Qed.

Lemma remove_from_tree_shrinks fuel h tree node h' r :
  remove_from_tree node_eq fuel h tree node = Some (h', r) → shrinks h h'.
Proof.
  revert h tree h' r. induction fuel as [|fuel IH]; intros h tree h' r;
    cbn [remove_from_tree];
    destruct (h !! tree) as [[tid [[|c cs]|]|b]|] eqn:Ht; try done;
    try (intros [= <- _]; apply shrinks_refl).
  destruct (remove_loop _ _ _ _ _ _ _) as [[h2 r2]|] eqn:Hloop; [|done].
  intros Hr. assert (h' = h2) as -> by (destruct r2; congruence).
  eapply remove_loop_shrinks; [|exact Hloop].
  intros h1 d h3 r3. apply IH.
Qed.
End remove_shrinks.

Section remove_returns.
Variable node_eq : heap → nat → nat → bool.

Lemma getattr_id_is_Some h a : is_Some (h !! a) → is_Some (getattr_id h a).
Proof. intros [[i k|b] Ho]; unfold getattr_id; rewrite Ho; by eexists. Qed.

Lemma shrinks_lookup_is_Some h h' a :
  shrinks h h' → is_Some (h !! a) → is_Some (h' !! a).
Proof. intros Hs [o Ho]. destruct (Hs a o Ho) as (o' & -> & _). by eexists. Qed.

Lemma shrinks_children h h' tree tid cs :
  shrinks h h' → h !! tree = Some (ONode tid (Some cs)) →
  ∃ cs', h' !! tree = Some (ONode tid (Some cs')) ∧ cs' `sublist_of` cs.
Proof.
  intros Hs Ht. destruct (Hs tree _ Ht) as (o' & Ho' & Hoo').
  destruct o' as [i' [cs'|]|b']; cbn in Hoo'; try congruence.
  destruct Hoo' as [<- Hsub]. by exists cs'.
Qed.

Lemma remove_loop_total rec k h0 tree node tid cs0 :
  h0 !! tree = Some (ONode tid (Some cs0)) →
  (∀ c, c ∈ cs0 → is_Some (load k h0 c)) →
  is_Some (h0 !! node) →
  (∀ h c, is_Some (load k h c) → is_Some (h !! node) → is_Some (rec h c)) →
  (∀ h1 c h2 r2, rec h1 c = Some (h2, r2) → shrinks h1 h2) →
  ∀ n i h,
    shrinks h0 h →
    (∀ cs, h !! tree = Some (ONode tid (Some cs)) → length cs ≤ n + i) →
    is_Some (remove_loop node_eq rec n h tree node i).
Proof.
  intros Ht0 Hkids Hnode Hrec Hrec_s.
  induction n as [|n IH]; intros i h Hs Hlen;
    destruct (shrinks_children _ _ _ _ _ Hs Ht0) as (cs & Ht & Hsub);
    cbn [remove_loop]; rewrite Ht;
    destruct (cs !! i) as [child|] eqn:Hi; try by eexists.
  { apply lookup_lt_Some in Hi. specialize (Hlen cs Ht). lia. }
  assert (child ∈ cs) as Hin by by eapply list_elem_of_lookup_2.
  assert (is_Some (load k h child)) as Hchild.
  { eapply shrinks_load; [done|]. apply Hkids. by eapply sublist_subseteq. }
  assert (is_Some (h !! node)) as Hnode' by by eapply shrinks_lookup_is_Some.
  destruct (getattr_id_is_Some h child) as [[cid|e] ->];
    [by eapply load_is_Some_lookup| |by eexists].
  destruct (getattr_id_is_Some h node Hnode') as [[nid|e] ->]; [|by eexists].
  pose proof (Hlen cs Ht) as Hlencs.
  destruct (cid =? nid)%Z.
  - destruct (list_remove_is_Some node_eq h child cs Hin) as [cs' Hrm].
    rewrite Hrm. destruct (list_remove_sublist _ _ _ _ _ Hrm) as [Hsub' Hlen'].
    pose proof (shrinks_insert h tree tid cs cs' Ht Hsub') as Hs1.
    destruct (Hrec (<[tree:=ONode tid (Some cs')]> h) child) as [[h2 r2] Hrun].
    { by eapply shrinks_load. } { by eapply shrinks_lookup_is_Some. }
    rewrite Hrun. destruct r2 as [r2|e]; [|by eexists].
    pose proof (Hrec_s _ _ _ _ Hrun) as Hs2.
    apply IH.
    + eapply shrinks_trans; [done|]. by eapply shrinks_trans.
    + intros cs2 Ht2.
      destruct (shrinks_children _ _ tree tid cs' Hs2) as (cs2' & Ht2' & Hsub2).
      { by rewrite lookup_insert_eq. }
      rewrite Ht2 in Ht2'. injection Ht2' as <-.
      apply sublist_length in Hsub2. lia.
  - destruct (Hrec h child Hchild Hnode') as [[h2 r2] Hrun].
    rewrite Hrun. destruct r2 as [r2|e]; [|by eexists].
    pose proof (Hrec_s _ _ _ _ Hrun) as Hs2.
    apply IH.
    + by eapply shrinks_trans.
    + intros cs2 Ht2.
      destruct (shrinks_children _ _ tree tid cs Hs2 Ht) as (cs2' & Ht2' & Hsub2).
      rewrite Ht2 in Ht2'. injection Ht2' as <-.
      apply sublist_length in Hsub2. lia.
Qed.

(** On a stored tree [remove_from_tree] returns: the fuel that reads the
    tree back is enough for the removal. *)
Lemma remove_from_tree_total k h tree node :
  is_Some (load k h tree) → is_Some (h !! node) →
  is_Some (remove_from_tree node_eq k h tree node).
Proof.
  revert h tree. induction k as [|k IH]; intros h tree Hload Hnode.
  { by destruct Hload. }
  cbn in Hload. cbn [remove_from_tree].
  destruct (h !! tree) as [[tid [[|c cs]|]|b]|] eqn:Ht; try done.
  apply fmap_is_Some, mapM_is_Some in Hload.
  assert (is_Some (remove_loop node_eq
                     (λ h' c', remove_from_tree node_eq k h' c' node)
                     (length (c :: cs)) h tree node 0)) as [[h2 r2] ->].
  { apply (remove_loop_total _ k h tree node tid (c :: cs) Ht).
    - intros d Hd. rewrite Forall_forall in Hload. by apply Hload.
    - done.
    - intros h1 d. apply IH.
    - intros h1 d h3 r3. apply remove_from_tree_shrinks.
    - apply shrinks_refl.
    - intros cs' Ht'. rewrite Ht in Ht'. injection Ht' as <-. lia. }
  destruct r2; done.
Qed.
End remove_returns.

(** C1, on the code.  The root has the children A (identity 1),
    B (identity 2) and C (identity 2), in that order.  Removing B leaves
    the children A and C: once B is taken out of the list, C has moved
    to the index the iterator has just left and is never examined.  This
    holds for every [==] under which equal nodes have equal
    identities. *)
Theorem remove_skips_sibling_after_match
    (node_eq : heap → nat → nat → bool) (fuel : nat) :
  eq_respects_id node_eq →
  remove_from_tree node_eq (S fuel) heap_siblings 0 2
  = Some (<[0 := ONode 0 (Some [1; 3])]> heap_siblings, Ok 0) ∧
  load 2 (<[0 := ONode 0 (Some [1; 3])]> heap_siblings) 0
  = Some (Node 0 CdpNode
            (Some [Node 1 CdpNode None; Node 2 CdpNode None])).
Proof.
  intros Hresp. split; [|by vm_compute].
  rewrite (remove_from_tree_inner _ _ _ 0 2 0%Z 1 [2; 3]) by done.
  cbn [length].
  rewrite (remove_loop_keep _ _ _ _ 0 2 0 0%Z [1; 2; 3] 1 1%Z 2%Z)
    by done.
  rewrite (remove_from_tree_leaf _ _ _ 1 2 1%Z) by done.
  rewrite (remove_loop_drop _ _ _ _ 0 2 1 0%Z [1; 2; 3] [1; 3] 2 2%Z);
    [|done..|].
  - rewrite (remove_from_tree_leaf _ _ _ 2 2 2%Z) by done.
    by rewrite (remove_loop_stop _ _ _ _ 0 2 2 0%Z [1; 3]).
  - apply (list_remove_at node_eq _ [1; 2; 3] 1 2 2%Z None Hresp);
      [done..|].
    intros j y Hj Hy. destruct j as [|j]; [|lia].
    cbn in Hy. injection Hy as <-. by exists 1%Z, None.
Qed.

Lemma same_object_respects_id : eq_respects_id same_object.
Proof.
  intros h a b i j ka kb Ha Hb ->%Nat.eqb_eq. congruence.
Qed.

Lemma remove_skips_sibling_after_match_witness :
  remove_from_tree same_object 1 heap_siblings 0 2
  = Some (<[0 := ONode 0 (Some [1; 3])]> heap_siblings, Ok 0) ∧
  load 2 (<[0 := ONode 0 (Some [1; 3])]> heap_siblings) 0
  = Some (Node 0 CdpNode
            (Some [Node 1 CdpNode None; Node 2 CdpNode None])).
Proof.
  apply (remove_skips_sibling_after_match same_object 0).
  exact same_object_respects_id.
Defined.

(** C9, on the code.  The root has the children B (identity 2) and
    C (identity 3), and C has the child D (identity 2): the target
    identity is a direct child at two depths.  Removing B leaves C as
    the only child of the root, with D still under it: taking B out
    ends the loop over the root's children before C is reached, so the
    call never descends into C. *)
Theorem remove_misses_deeper_match
    (node_eq : heap → nat → nat → bool) (fuel : nat) :
  eq_respects_id node_eq →
  remove_from_tree node_eq (S fuel) heap_nested 0 1
  = Some (<[0 := ONode 0 (Some [2])]> heap_nested, Ok 0) ∧
  load 3 (<[0 := ONode 0 (Some [2])]> heap_nested) 0
  = Some (Node 0 CdpNode
            (Some [Node 3 CdpNode (Some [Node 2 CdpNode None])])).
Proof.
  intros Hresp. split; [|by vm_compute].
  rewrite (remove_from_tree_inner _ _ _ 0 1 0%Z 1 [2]) by done.
  cbn [length].
  rewrite (remove_loop_drop _ _ _ _ 0 1 0 0%Z [1; 2] [2] 1 2%Z);
    [|done..|].
  - rewrite (remove_from_tree_leaf _ _ _ 1 1 2%Z) by done.
    by rewrite (remove_loop_stop _ _ _ _ 0 1 1 0%Z [2]).
  - apply (list_remove_at node_eq _ [1; 2] 0 1 2%Z None Hresp); [done..|].
    intros j y Hj. lia.
Qed.

Lemma remove_misses_deeper_match_witness :
  remove_from_tree same_object 1 heap_nested 0 1
  = Some (<[0 := ONode 0 (Some [2])]> heap_nested, Ok 0) ∧
  load 3 (<[0 := ONode 0 (Some [2])]> heap_nested) 0
  = Some (Node 0 CdpNode
            (Some [Node 3 CdpNode (Some [Node 2 CdpNode None])])).
Proof.
  apply (remove_misses_deeper_match same_object 0).
  exact same_object_respects_id.
Defined.

(** *** Removal on stored trees in general *)

(** X1.  On a stored tree none of whose nodes has a direct child with
    the target's identity, [remove_from_tree] returns the address it was
    given and leaves the store, and with it the tree, exactly as it
    was. *)
Theorem remove_absent_leaves_tree_unchanged
    (node_eq : heap → nat → nat → bool)
    (k : nat) (h : heap) (tree node : nat) (T : pyobj) (nid : Z) :
  load k h tree = Some T → is_tree T = true →
  getattr_id h node = Some (Ok nid) →
  (∀ a, reaches h tree a → ¬ has_child_with_id h a nid) →
  remove_from_tree node_eq k h tree node = Some (h, Ok tree) ∧
  load k h tree = Some T.
Proof.
  intros Hload Htree Hn Habsent. split; [|done].
  by eapply remove_from_tree_absent_total.
Qed.

Lemma no_child_of_heap_nested_has_id_0 a :
  ¬ has_child_with_id heap_nested a 0.
Proof.
  intros (j & cs & c & k & Ha & Hc & Hid). unfold heap_nested in Ha.
  repeat (apply lookup_insert_Some in Ha as [[<- Ha]|[_ Ha]]);
    try done; injection Ha as <- <-;
    repeat (apply elem_of_cons in Hc as [->|Hc]);
    try (by apply elem_of_nil in Hc); by vm_compute in Hid.
Qed.

Lemma remove_absent_leaves_tree_unchanged_witness :
  remove_from_tree same_object 3 heap_nested 0 0
  = Some (heap_nested, Ok 0) ∧
  load 3 heap_nested 0
  = Some (Node 0 CdpNode
            (Some [Node 2 CdpNode None;
                   Node 3 CdpNode (Some [Node 2 CdpNode None])])).
Proof.
  apply (remove_absent_leaves_tree_unchanged same_object 3 heap_nested 0 0
           _ 0%Z).
  - reflexivity.
  - reflexivity.
  - reflexivity.
  - intros a _. apply no_child_of_heap_nested_has_id_0.
Defined.

(** X2.  On every stored tree, and for every target that is in the
    store, [remove_from_tree] returns when given the fuel that reads the
    tree back.  All it does to the store is to shorten child lists, and
    a normal return gives back the address it was called with. *)
Theorem remove_from_tree_returns_on_stored_trees
    (node_eq : heap → nat → nat → bool)
    (k : nat) (h : heap) (tree node : nat) :
  is_Some (load k h tree) → is_Some (h !! node) →
  ∃ h' r,
    remove_from_tree node_eq k h tree node = Some (h', r) ∧
    shrinks h h' ∧
    (∀ a, r = Ok a → a = tree).
Proof.
  intros Hload Hnode.
  destruct (remove_from_tree_total node_eq k h tree node Hload Hnode)
    as [[h' r] Hrun].
  exists h', r. split_and!; [done| |].
  - by eapply remove_from_tree_shrinks.
  - intros a ->. by eapply remove_from_tree_returns_tree.
Qed.

Lemma remove_from_tree_returns_on_stored_trees_witness :
  ∃ h' r,
    remove_from_tree same_object 2 heap_siblings 0 2 = Some (h', r) ∧
    shrinks heap_siblings h' ∧
    (∀ a, r = Ok a → a = 0).
Proof.
  apply (remove_from_tree_returns_on_stored_trees same_object 2
           heap_siblings 0 2).
  - eexists. reflexivity.
  - eexists. reflexivity.
Defined.

(** ** Registry teardown *)

(** The scenario of two handles, the second already stopped and its
    directory missing: the first is stopped and its directory removed
    (the attempt after the successful one finds it gone and ends the
    loop), the second costs one removal attempt. *)
Example drain_two_handles :
  deconstruct_browser stop_ok (rmtree_missing "/tmp/p2")
    [handle_1; handle_2] []
  = ([Stop 1; Rmtree "/tmp/p1"; Rmtree "/tmp/p1"; LogInfo "/tmp/p1";
      Rmtree "/tmp/p2"; LogInfo "/tmp/p2"], Ok ()).
Proof. vm_compute. reflexivity. Qed.

Section registry_properties.
Variable stop_outcome : list event → Browser → option exn.
Variable rmtree_outcome : list event → string → option exn.

Lemma lock_error_caught e :
  is_lock_error e = true → is_OSError e = true ∧ e ≠ FileNotFoundError.
Proof. by destruct e. Qed.

(** One failed attempt that is not the last: the removal, then the
    sleep, then the attempts that are left. *)
Lemma retry_loop_locked attempt rest b c tr e :
  config b = Some c → custom_data_dir c = false →
  rmtree_outcome tr (user_data_dir c) = Some e → is_lock_error e = true →
  retry_loop rmtree_outcome (attempt :: rest) b tr
  = if attempt =? 4
    then (tr ++ [Rmtree (user_data_dir c); LogDebug (user_data_dir c) e],
          Ok ())
    else retry_loop rmtree_outcome rest b
           (tr ++ [Rmtree (user_data_dir c); Sleep 150]).
Proof.
  intros Hc Hown He Hlock. cbn [retry_loop]. rewrite Hc, Hown, He.
  rewrite <- !(assoc_L (++)). cbn [app].
  by destruct e.
Qed.

Lemma teardown_after_stop b tr tr1 :
  stop_if_running stop_outcome b tr = (tr1, Ok ()) →
  teardown stop_outcome rmtree_outcome b tr
  = match retry_loop rmtree_outcome (seq 0 5) b tr1 with
    | (tr2, Raise e) => (tr2, Raise e)
    | (tr2, Ok _) => log_removed b tr2
    end.
Proof. unfold teardown. by intros ->. Qed.
End registry_properties.

(** C4.  A handle owns its directory [d] and every removal of [d] fails
    with a permission or lock error.  Then the retry loop makes exactly
    five removal attempts with a sleep of 150 ms between two consecutive
    ones, logs the path together with the error [e] of the fifth attempt
    and ends without raising; so does the teardown of that handle, which
    goes on to its closing log line. *)
Theorem retry_gives_up_after_five_attempts
    (stop_outcome : list event → Browser → option exn)
    (rmtree_outcome : list event → string → option exn)
    (b : Browser) (c : Config) (tr : list event) :
  config b = Some c → custom_data_dir c = false →
  (∀ h, ∃ e, rmtree_outcome h (user_data_dir c) = Some e ∧
             is_lock_error e = true) →
  let d := user_data_dir c in
  let tries :=
    [Rmtree d; Sleep 150; Rmtree d; Sleep 150; Rmtree d; Sleep 150;
     Rmtree d; Sleep 150] in
  ∃ e,
    rmtree_outcome (tr ++ tries) d = Some e ∧
    retry_loop rmtree_outcome (seq 0 5) b tr
    = (tr ++ tries ++ [Rmtree d; LogDebug d e], Ok ()) ∧
    ∀ tr0, stop_if_running stop_outcome b tr0 = (tr, Ok ()) →
      teardown stop_outcome rmtree_outcome b tr0
      = (tr ++ tries ++ [Rmtree d; LogDebug d e; LogInfo d], Ok ()).
Proof.
  intros Hc Hown Hfail d tries.
  destruct (Hfail tr) as (e0 & H0 & L0).
  destruct (Hfail (tr ++ [Rmtree d; Sleep 150])) as (e1 & H1 & L1).
  destruct (Hfail ((tr ++ [Rmtree d; Sleep 150]) ++ [Rmtree d; Sleep 150]))
    as (e2 & H2 & L2).
  destruct (Hfail (((tr ++ [Rmtree d; Sleep 150]) ++ [Rmtree d; Sleep 150])
                     ++ [Rmtree d; Sleep 150])) as (e3 & H3 & L3).
  destruct (Hfail ((((tr ++ [Rmtree d; Sleep 150]) ++ [Rmtree d; Sleep 150])
                      ++ [Rmtree d; Sleep 150]) ++ [Rmtree d; Sleep 150]))
    as (e4 & H4 & L4).
  assert (retry_loop rmtree_outcome (seq 0 5) b tr
          = (tr ++ tries ++ [Rmtree d; LogDebug d e4], Ok ())) as Hloop.
  { cbn [seq].
    rewrite (retry_loop_locked _ 0 _ b c tr e0 Hc Hown H0 L0). cbn [Nat.eqb].
    rewrite (retry_loop_locked _ 1 _ b c _ e1 Hc Hown H1 L1). cbn [Nat.eqb].
    rewrite (retry_loop_locked _ 2 _ b c _ e2 Hc Hown H2 L2). cbn [Nat.eqb].
    rewrite (retry_loop_locked _ 3 _ b c _ e3 Hc Hown H3 L3). cbn [Nat.eqb].
    rewrite (retry_loop_locked _ 4 _ b c _ e4 Hc Hown H4 L4). cbn [Nat.eqb].
    by rewrite <- !(assoc_L (++)). }
  exists e4. split_and!.
  - rewrite <- H4. f_equal. unfold tries. by rewrite <- !(assoc_L (++)).
  - exact Hloop.
  - intros tr0 Hstop.
    rewrite (teardown_after_stop _ _ b tr0 tr Hstop), Hloop.
    unfold log_removed. rewrite Hc. fold d.
    by rewrite <- !(assoc_L (++)).
Qed.

Lemma retry_gives_up_after_five_attempts_witness :
  ∃ e,
    rmtree_locked
      ([Stop 1] ++
       [Rmtree "/tmp/p1"; Sleep 150; Rmtree "/tmp/p1"; Sleep 150;
        Rmtree "/tmp/p1"; Sleep 150; Rmtree "/tmp/p1"; Sleep 150])
      "/tmp/p1" = Some e ∧
    retry_loop rmtree_locked (seq 0 5) handle_1 [Stop 1]
    = ([Stop 1] ++
       [Rmtree "/tmp/p1"; Sleep 150; Rmtree "/tmp/p1"; Sleep 150;
        Rmtree "/tmp/p1"; Sleep 150; Rmtree "/tmp/p1"; Sleep 150] ++
       [Rmtree "/tmp/p1"; LogDebug "/tmp/p1" e], Ok ()) ∧
    ∀ tr0, stop_if_running stop_ok handle_1 tr0 = ([Stop 1], Ok ()) →
      teardown stop_ok rmtree_locked handle_1 tr0
      = ([Stop 1] ++
         [Rmtree "/tmp/p1"; Sleep 150; Rmtree "/tmp/p1"; Sleep 150;
          Rmtree "/tmp/p1"; Sleep 150; Rmtree "/tmp/p1"; Sleep 150] ++
         [Rmtree "/tmp/p1"; LogDebug "/tmp/p1" e; LogInfo "/tmp/p1"], Ok ()).
Proof.
  apply (retry_gives_up_after_five_attempts stop_ok rmtree_locked handle_1
           {| custom_data_dir := false; user_data_dir := "/tmp/p1" |}
           [Stop 1]).
  - reflexivity.
  - reflexivity.
  - intros h. exists PermissionError. split; reflexivity.
Defined.

(** C5.  A handle owns its directory [d] and a removal attempt finds [d]
    absent.  Then the retry loop ends with that attempt, whatever
    attempts were left: no further removal, no sleep, no failure logged,
    nothing raised.  When it is the first attempt of a teardown, what
    the teardown does after the stop is one removal attempt and the
    closing log line. *)
Theorem missing_directory_ends_retries
    (stop_outcome : list event → Browser → option exn)
    (rmtree_outcome : list event → string → option exn)
    (b : Browser) (c : Config) (tr : list event) :
  config b = Some c → custom_data_dir c = false →
  rmtree_outcome tr (user_data_dir c) = Some FileNotFoundError →
  (∀ attempt rest,
     retry_loop rmtree_outcome (attempt :: rest) b tr
     = (tr ++ [Rmtree (user_data_dir c)], Ok ())) ∧
  (∀ tr0, stop_if_running stop_outcome b tr0 = (tr, Ok ()) →
     teardown stop_outcome rmtree_outcome b tr0
     = (tr ++ [Rmtree (user_data_dir c); LogInfo (user_data_dir c)], Ok ())).
Proof.
  intros Hc Hown Hgone.
  assert (∀ attempt rest,
     retry_loop rmtree_outcome (attempt :: rest) b tr
     = (tr ++ [Rmtree (user_data_dir c)], Ok ())) as Hloop.
  { intros attempt rest. cbn [retry_loop]. by rewrite Hc, Hown, Hgone. }
  split; [exact Hloop|]. intros tr0 Hstop.
  rewrite (teardown_after_stop _ _ b tr0 tr Hstop). cbn [seq].
  rewrite Hloop. unfold log_removed. rewrite Hc.
  by rewrite <- (assoc_L (++)).
Qed.

Lemma missing_directory_ends_retries_witness :
  (∀ attempt rest,
     retry_loop (rmtree_missing "/tmp/p2") (attempt :: rest) handle_2 []
     = ([] ++ [Rmtree "/tmp/p2"], Ok ())) ∧
  (∀ tr0, stop_if_running stop_ok handle_2 tr0 = ([], Ok ()) →
     teardown stop_ok (rmtree_missing "/tmp/p2") handle_2 tr0
     = ([] ++ [Rmtree "/tmp/p2"; LogInfo "/tmp/p2"], Ok ())).
Proof.
  apply (missing_directory_ends_retries stop_ok (rmtree_missing "/tmp/p2")
           handle_2
           {| custom_data_dir := false; user_data_dir := "/tmp/p2" |} []).
  - reflexivity.
  - reflexivity.
  - vm_compute. reflexivity.
Defined.

Section drain.
Variable stop_outcome : list event → Browser → option exn.
Variable rmtree_outcome : list event → string → option exn.
Hypothesis rmtree_raises_OSError :
  ∀ h dir e, rmtree_outcome h dir = Some e → is_OSError e = true.

(** With nothing but [OSError]s from the file system the retry loop
    never raises, and it tries the removal of an owned directory at
    least once. *)
Lemma retry_loop_contained attempts b tr :
  ∃ new,
    retry_loop rmtree_outcome attempts b tr = (tr ++ new, Ok ()) ∧
    ∀ c, attempts ≠ [] → config b = Some c → custom_data_dir c = false →
         Rmtree (user_data_dir c) ∈ new.
Proof.
  revert tr. induction attempts as [|attempt rest IH]; intros tr.
  { exists []. by rewrite (right_id_L [] (++)). }
  cbn [retry_loop]. destruct (config b) as [c|] eqn:Hc.
  2:{ destruct (IH tr) as (new & -> & _). by exists new. }
  destruct (custom_data_dir c) eqn:Hown.
  { destruct (IH tr) as (new & -> & _). exists new. split; [done|].
    intros c' _ [= <-]. congruence. }
  destruct (rmtree_outcome tr (user_data_dir c)) as [e|] eqn:He.
  - assert (is_OSError e = true) as Hos by eauto.
    destruct e; try discriminate Hos; cbn [is_OSError].
    + exists [Rmtree (user_data_dir c)]. split; [done|].
      intros c' _ [= <-] _. left.
    + destruct (attempt =? 4).
      * eexists (_ :: _). rewrite <- (assoc_L (++)). split; [done|].
        intros c' _ [= <-] _. left.
      * destruct (IH ((tr ++ [Rmtree (user_data_dir c)]) ++ [Sleep 150]))
          as (new & -> & _).
        eexists (_ :: _). rewrite <- !(assoc_L (++)). split; [done|].
        intros c' _ [= <-] _. left.
    + destruct (attempt =? 4).
      * eexists (_ :: _). rewrite <- (assoc_L (++)). split; [done|].
        intros c' _ [= <-] _. left.
      * destruct (IH ((tr ++ [Rmtree (user_data_dir c)]) ++ [Sleep 150]))
          as (new & -> & _).
        eexists (_ :: _). rewrite <- !(assoc_L (++)). split; [done|].
        intros c' _ [= <-] _. left.
  - destruct (IH (tr ++ [Rmtree (user_data_dir c)])) as (new & -> & _).
    exists (Rmtree (user_data_dir c) :: new). split.
    + by rewrite <- (assoc_L (++)).
    + intros c' _ [= <-] _. left.
Qed.

Lemma teardown_contained b tr :
  stop_outcome tr b = None → config b ≠ None →
  ∃ new,
    teardown stop_outcome rmtree_outcome b tr = (tr ++ new, Ok ()) ∧
    (stopped b = false → Stop (pid b) ∈ new) ∧
    (∀ c, config b = Some c → custom_data_dir c = false →
          Rmtree (user_data_dir c) ∈ new).
Proof.
  intros Hstop Hcfg. unfold teardown, stop_if_running. rewrite Hstop.
  destruct (config b) as [c|] eqn:Hc; [|done].
  destruct (stopped b).
  - destruct (retry_loop_contained (seq 0 5) b tr) as (new & -> & Hnew).
    unfold log_removed. rewrite Hc.
    exists (new ++ [LogInfo (user_data_dir c)]). split_and!.
    + by rewrite (assoc_L (++)).
    + done.
    + intros c' [= <-] Hown. apply elem_of_app. left. by apply Hnew.
  - destruct (retry_loop_contained (seq 0 5) b (tr ++ [Stop (pid b)]))
      as (new & -> & Hnew).
    unfold log_removed. rewrite Hc.
    exists (Stop (pid b) :: new ++ [LogInfo (user_data_dir c)]). split_and!.
    + by rewrite <- !(assoc_L (++)).
    + intros _. left.
    + intros c' [= <-] Hown. right. apply elem_of_app. left. by apply Hnew.
Qed.
End drain.

Lemma deconstruct_browser_app stop_outcome rmtree_outcome pre post tr tr1 :
  deconstruct_browser stop_outcome rmtree_outcome pre tr = (tr1, Ok ()) →
  deconstruct_browser stop_outcome rmtree_outcome (pre ++ post) tr
  = deconstruct_browser stop_outcome rmtree_outcome post tr1.
Proof.
  revert tr. induction pre as [|b pre IH]; intros tr; cbn.
  { by intros [= ->]. }
  destruct (teardown stop_outcome rmtree_outcome b tr) as [tr' [[]|e]];
    [apply IH|done].
Qed.

(** C2, as the code has it.  Failures of the directory removal that
    belong to the [OSError] family are contained: when no [stop()]
    raises, every handle has a configuration and the removal raises
    nothing outside that family, the call ends normally and has stopped
    every handle that was not stopped and attempted the removal of every
    engine-owned directory.  A failure of [stop()] is not contained: the
    call raises it at once, and nothing is done for the handles that
    follow in the iteration. *)
Theorem drain_completes_unless_stop_raises
    (stop_outcome : list event → Browser → option exn)
    (rmtree_outcome : list event → string → option exn) :
  (∀ instances tr,
     (∀ h dir e, rmtree_outcome h dir = Some e → is_OSError e = true) →
     (∀ h b, b ∈ instances → stop_outcome h b = None) →
     (∀ b, b ∈ instances → config b ≠ None) →
     ∃ new,
       deconstruct_browser stop_outcome rmtree_outcome instances tr
       = (tr ++ new, Ok ()) ∧
       ∀ b, b ∈ instances →
         (stopped b = false → Stop (pid b) ∈ new) ∧
         (∀ c, config b = Some c → custom_data_dir c = false →
               Rmtree (user_data_dir c) ∈ new)) ∧
  (∀ pre b rest tr tr1 e,
     deconstruct_browser stop_outcome rmtree_outcome pre tr = (tr1, Ok ()) →
     stopped b = false → stop_outcome tr1 b = Some e →
     deconstruct_browser stop_outcome rmtree_outcome (pre ++ b :: rest) tr
     = (tr1 ++ [Stop (pid b)], Raise e)).
Proof.
  split.
  - intros instances tr Hrm. revert tr.
    induction instances as [|b rest IH]; intros tr Hstop Hcfg.
    { exists []. rewrite (right_id_L [] (++)). split; [done|].
      by intros b ?%elem_of_nil. }
    destruct (teardown_contained stop_outcome rmtree_outcome Hrm b tr)
      as (new1 & Hrun1 & Hstop1 & Hrm1).
    { apply Hstop. left. } { apply Hcfg. left. }
    destruct (IH (tr ++ new1)) as (new2 & Hrun2 & Hall).
    { intros h b' Hb'. apply Hstop. by right. }
    { intros b' Hb'. apply Hcfg. by right. }
    exists (new1 ++ new2). cbn [deconstruct_browser].
    rewrite Hrun1, Hrun2, (assoc_L (++)). split; [done|].
    intros b' [->|Hb']%elem_of_cons.
    + split.
      * intros Hs. apply elem_of_app. left. by apply Hstop1.
      * intros c Hc Hown. apply elem_of_app. left. by apply Hrm1.
    + destruct (Hall b' Hb') as [Hs Hr]. split.
      * intros ?. apply elem_of_app. right. by apply Hs.
      * intros c Hc Hown. apply elem_of_app. right. by apply Hr.
  - intros pre b rest tr tr1 e Hpre Hrun He.
    rewrite (deconstruct_browser_app _ _ pre (b :: rest) tr tr1 Hpre).
    cbn [deconstruct_browser]. unfold teardown, stop_if_running.
    by rewrite Hrun, He.
Qed.

Lemma drain_completes_unless_stop_raises_witness :
  (∃ new,
     deconstruct_browser stop_ok (rmtree_missing "/tmp/p2")
       [handle_1; handle_2] [] = ([] ++ new, Ok ()) ∧
     ∀ b, b ∈ [handle_1; handle_2] →
       (stopped b = false → Stop (pid b) ∈ new) ∧
       (∀ c, config b = Some c → custom_data_dir c = false →
             Rmtree (user_data_dir c) ∈ new)) ∧
  deconstruct_browser (stop_fails_for 3) rmtree_once
    ([handle_1] ++ handle_3 :: [handle_2]) []
  = ([Stop 1; Rmtree "/tmp/p1"; Rmtree "/tmp/p1"; LogInfo "/tmp/p1"]
       ++ [Stop (pid handle_3)], Raise (OtherError 0)).
Proof.
  split.
  - apply (proj1 (drain_completes_unless_stop_raises stop_ok
                    (rmtree_missing "/tmp/p2"))).
    + intros h dir e. unfold rmtree_missing, rmtree_once.
      repeat case_bool_decide; by intros [= <-].
    + done.
    + by intros b [->|[->|[]%elem_of_nil]%elem_of_cons]%elem_of_cons.
  - apply (proj2 (drain_completes_unless_stop_raises (stop_fails_for 3)
                    rmtree_once)); by vm_compute.
Defined.

(** C2, as the claim has it, fails.  [stop()] raises for the first of
    two running handles: the call raises, and the second handle is
    neither stopped nor cleaned up. *)
Lemma stop_failure_aborts_drain :
  deconstruct_browser (stop_fails_for 1) rmtree_once [handle_1; handle_3] []
  = ([Stop 1], Raise (OtherError 0)) ∧
  ¬ drains_every_handle (stop_fails_for 1) rmtree_once [handle_1; handle_3].
Proof.
  split; [by vm_compute|]. intros Hall.
  assert (handle_3 ∈ [handle_1; handle_3]) as Hin by (right; left).
  destruct (Hall handle_3 Hin) as [Hstop _].
  specialize (Hstop eq_refl). vm_compute in Hstop.
  by apply list_elem_of_singleton in Hstop.
Qed.

(** ** Port allocation *)

Section free_port_properties.
Variable new_fd : kernel → option nat.
Variable choose_port : kernel → string → option Z.

Lemma listening_socket_ok k fd p :
  new_fd k = Some fd →
  choose_port
    {| sockets := <[fd := {| local := None; backlog := None |}]> (sockets k);
       calls := calls k ++ [SysSocket fd] |} "127.0.0.1" = Some p →
  listening_socket new_fd choose_port k
  = ({| sockets :=
          <[fd := {| local := Some ("127.0.0.1", p); backlog := Some 5%Z |}]>
            (sockets k);
        calls := calls k ++ [SysSocket fd; SysBind fd "127.0.0.1" 0;
                             SysListen fd 5] |}, Ok fd).
Proof.
  intros Hfd Hport.
  unfold listening_socket, and_then, sys_socket, sys_bind, sys_listen.
  rewrite Hfd. cbn. rewrite lookup_insert_eq. cbn. rewrite Hport. cbn.
  rewrite lookup_insert_eq. cbn.
  by rewrite !insert_insert_eq, <- !(assoc_L (++)).
Qed.

Lemma free_port_ok k fd p :
  new_fd k = Some fd → sockets k !! fd = None →
  choose_port
    {| sockets := <[fd := {| local := None; backlog := None |}]> (sockets k);
       calls := calls k ++ [SysSocket fd] |} "127.0.0.1" = Some p →
  free_port new_fd choose_port k
  = ({| sockets := sockets k;
        calls := calls k ++ [SysSocket fd; SysBind fd "127.0.0.1" 0;
                             SysListen fd 5; SysGetsockname fd;
                             SysClose fd] |}, Ok p).
Proof.
  intros Hfd Hfresh Hport.
  unfold free_port, and_then, sys_socket, sys_bind, sys_listen,
    sys_getsockname, sys_close.
  rewrite Hfd. cbn. rewrite lookup_insert_eq. cbn. rewrite Hport. cbn.
  rewrite lookup_insert_eq. cbn. rewrite lookup_insert_eq. cbn.
  rewrite !insert_insert_eq, (delete_insert_id _ _ _ Hfresh).
  by rewrite <- !(assoc_L (++)).
Qed.
End free_port_properties.

(** C10.  The kernel grants a descriptor [fd] that is not open and, at
    the bind to port 0 on the loopback address, the port [p].  Then
    [free_port] has a socket bound to (127.0.0.1, [p]) and listening
    after its first three calls, returns [p], and has closed the socket
    when it returns: the table of open sockets is what it was before
    the call, so [fd] is not open and [p] is held by no socket that did
    not hold it before.  A call that follows at once returns as well,
    with the port the kernel grants it. *)
Theorem free_port_returns_bound_port_and_closes
    (new_fd : kernel → option nat)
    (choose_port : kernel → string → option Z)
    (k : kernel) (fd : nat) (p : Z) :
  new_fd k = Some fd → sockets k !! fd = None →
  choose_port
    {| sockets := <[fd := {| local := None; backlog := None |}]> (sockets k);
       calls := calls k ++ [SysSocket fd] |} "127.0.0.1" = Some p →
  let k' :=
    {| sockets := sockets k;
       calls := calls k ++ [SysSocket fd; SysBind fd "127.0.0.1" 0;
                            SysListen fd 5; SysGetsockname fd;
                            SysClose fd] |} in
  (∃ k1, listening_socket new_fd choose_port k = (k1, Ok fd) ∧
         sockets k1 !! fd
         = Some {| local := Some ("127.0.0.1", p); backlog := Some 5%Z |}) ∧
  free_port new_fd choose_port k = (k', Ok p) ∧
  sockets k' !! fd = None ∧
  (¬ in_use (sockets k) "127.0.0.1" p → ¬ in_use (sockets k') "127.0.0.1" p) ∧
  (∀ fd2 p2,
     new_fd k' = Some fd2 → sockets k' !! fd2 = None →
     choose_port
       {| sockets :=
            <[fd2 := {| local := None; backlog := None |}]> (sockets k');
          calls := calls k' ++ [SysSocket fd2] |} "127.0.0.1" = Some p2 →
     ∃ k'', free_port new_fd choose_port k' = (k'', Ok p2)).
Proof.
  intros Hfd Hfresh Hport k'. split_and!.
  - eexists. split; [by apply listening_socket_ok|].
    cbn. by rewrite lookup_insert_eq.
  - by apply free_port_ok.
  - done.
  - done.
  - intros fd2 p2 Hfd2 Hfresh2 Hport2. eexists.
    by apply free_port_ok.
Qed.

Lemma free_port_returns_bound_port_and_closes_witness :
  (∃ k1, listening_socket least_fd rolling_port idle_kernel = (k1, Ok 0) ∧
         sockets k1 !! 0
         = Some {| local := Some ("127.0.0.1", 49153%Z);
                   backlog := Some 5%Z |}) ∧
  free_port least_fd rolling_port idle_kernel
  = ({| sockets := sockets idle_kernel;
        calls := calls idle_kernel ++
                 [SysSocket 0; SysBind 0 "127.0.0.1" 0; SysListen 0 5;
                  SysGetsockname 0; SysClose 0] |}, Ok 49153%Z) ∧
  sockets idle_kernel !! 0 = None ∧
  (¬ in_use (sockets idle_kernel) "127.0.0.1" 49153 →
   ¬ in_use (sockets idle_kernel) "127.0.0.1" 49153) ∧
  (∀ fd2 p2,
     least_fd
       {| sockets := sockets idle_kernel;
          calls := calls idle_kernel ++
                   [SysSocket 0; SysBind 0 "127.0.0.1" 0; SysListen 0 5;
                    SysGetsockname 0; SysClose 0] |} = Some fd2 →
     sockets idle_kernel !! fd2 = None →
     rolling_port
       {| sockets :=
            <[fd2 := {| local := None; backlog := None |}]>
              (sockets idle_kernel);
          calls := (calls idle_kernel ++
                    [SysSocket 0; SysBind 0 "127.0.0.1" 0; SysListen 0 5;
                     SysGetsockname 0; SysClose 0]) ++ [SysSocket fd2] |}
       "127.0.0.1" = Some p2 →
     ∃ k'',
       free_port least_fd rolling_port
         {| sockets := sockets idle_kernel;
            calls := calls idle_kernel ++
                     [SysSocket 0; SysBind 0 "127.0.0.1" 0; SysListen 0 5;
                      SysGetsockname 0; SysClose 0] |} = (k'', Ok p2)).
Proof.
  apply (free_port_returns_bound_port_and_closes least_fd rolling_port
           idle_kernel 0 49153%Z); reflexivity.
Defined.

(** Two calls in a row on the sample kernel: both return, each with the
    port the kernel gave, and no socket stays open. *)
Example free_port_twice :
  ∃ k1 k2,
    free_port least_fd rolling_port idle_kernel = (k1, Ok 49153%Z) ∧
    free_port least_fd rolling_port k1 = (k2, Ok 49158%Z) ∧
    sockets k2 = ∅.
Proof.
  eexists _, _. split_and!.
  - by apply (free_port_ok least_fd rolling_port idle_kernel 0).
  - by apply (free_port_ok least_fd rolling_port _ 0).
  - done.
Qed.

(** ** Serialisation as one pass over the descendants *)

Section serve_properties.
Context {remote : Type}.
Variable respond : remote → request → remote * reply.

Lemma serve_app l1 l2 out s :
  serve respond (l1 ++ l2) out s
  = match serve respond l1 out s with
    | (s1, Ok o1) => serve respond l2 o1 s1
    | (s1, Raise e) => (s1, Raise e)
    end.
Proof.
  revert out s. induction l1 as [|rq l1 IH]; intros out s; [done|].
  cbn [app serve]. destruct (await respond rq s) as [s1 [m|e]]; [|done].
  apply IH.
Qed.

Lemma serve_prefix l out s :
  serve respond l out s
  = match serve respond l "" s with
    | (s1, Ok r) => (s1, Ok (out +:+ r))
    | (s1, Raise e) => (s1, Raise e)
    end.
Proof.
  revert out s. induction l as [|rq l IH]; intros out s.
  { cbn. by rewrite append_empty_r. }
  cbn [serve]. destruct (await respond rq s) as [s1 [m|e]]; [|done].
  rewrite (IH (out +:+ m)), (IH ("" +:+ m)).
  destruct (serve respond l "" s1) as [s2 [r|e]]; [|done].
  change ("" +:+ m) with m. by rewrite append_assoc.
Qed.

Lemma shift_nodes p (l : list (path * pyobj)) : (shift p <$> l).*2 = l.*2.
Proof. rewrite <- list_fmap_compose. by apply list_fmap_ext. Qed.

Lemma children_nodes i c rest :
  (children_at descendants_at [] i (c :: rest)).*2
  = c :: descendants c ++ (children_at descendants_at [] (S i) rest).*2.
Proof.
  cbn [children_at app]. rewrite fmap_cons, fmap_app.
  by rewrite (descendants_at_shift c [i]), shift_nodes.
Qed.

Lemma requests_of_app l1 l2 :
  requests_of (l1 ++ l2) = requests_of l1 ++ requests_of l2.
Proof. apply omap_app. Qed.

Lemma html_loop_serve cs out s i :
  Forall (λ c, ∀ s', is_tree c = true →
            html_from_tree respond c s'
            = serve respond (requests_of (descendants c)) "" s') cs →
  forallb is_tree cs = true →
  html_loop respond (html_from_tree respond) cs out s
  = serve respond
      (requests_of (children_at descendants_at [] i cs).*2) out s.
Proof.
  intros Hcs. revert out s i.
  induction Hcs as [|c cs Hc _ IH]; intros out s i Htree; [done|].
  cbn in Htree. apply andb_true_iff in Htree as [Hct Hrest].
  rewrite children_nodes. cbn [html_loop].
  assert (∃ rq, request_of c = Ok rq ∧
                ∀ l, requests_of (c :: l) = rq :: requests_of l)
    as (rq & Hrq & Hcons).
  { destruct c as [j [] kids|b]; [| |by cbn in Hct]; by eexists. }
  rewrite Hcons. unfold own_markup. rewrite Hrq. cbn [serve].
  destruct (await respond rq s) as [s1 [own|e]]; [|done].
  rewrite requests_of_app, serve_app, (Hc s1 Hct).
  rewrite (serve_prefix _ (out +:+ own)).
  destruct (serve respond (requests_of (descendants c)) "" s1)
    as [s2 [sub|e]]; [|done].
  by apply IH.
Qed.

Lemma html_from_tree_serve T s :
  is_tree T = true →
  html_from_tree respond T s
  = serve respond (requests_of (descendants T)) "" s.
Proof.
  revert s. induction T as [b|i c|i c cs IH] using pyobj_rose_ind;
    intros s Htree; [done..|].
  cbn in Htree. cbn [html_from_tree]. by apply (html_loop_serve cs "" s 0).
Qed.

(** A pass that ends normally has awaited every call of the list, in
    order, and returns the replies appended to [out]. *)
Lemma serve_ok rqs out s s' r :
  serve respond rqs out s = (s', Ok r) →
  ∃ ms, length ms = length rqs ∧
        awaited s' = awaited s ++ zip rqs (Ok <$> ms) ∧
        r = out +:+ concat_text ms.
Proof.
  revert out s. induction rqs as [|rq rqs IH]; intros out s.
  { intros [= <- <-]. exists []. cbn.
    by rewrite (right_id_L [] (++)), append_empty_r. }
  cbn [serve]. unfold await at 1.
  destruct (respond (peer s) rq) as [p' [lat [m|e]]]; cbn; [|done].
  intros Hrun. destruct (IH _ _ Hrun) as (ms & Hlen & Hlog & ->).
  exists (m :: ms). cbn in *. split_and!.
  - by rewrite Hlen.
  - by rewrite Hlog, <- (assoc_L (++)).
  - by rewrite append_assoc.
Qed.
End serve_properties.

Lemma descendants_are_trees T :
  is_tree T = true → Forall (λ v, is_tree v = true) (descendants T).
Proof.
  intros Htree. apply Forall_forall. intros v Hv.
  apply list_elem_of_fmap in Hv as ([q n] & -> & Hq).
  apply descendants_at_elem in Hq as [_ Hq].
  by apply (subtree_at_is_tree T q).
Qed.

Lemma requests_of_length l :
  Forall (λ v, is_tree v = true) l → length (requests_of l) = length l.
Proof.
  unfold requests_of. induction 1 as [|v l Hv _ IH]; [done|].
  destruct v as [j [] kids|b]; [| |by cbn in Hv]; cbn; by rewrite IH.
Qed.

(** X3.  On every tree, [html_from_tree] behaves as one pass over the
    descendants in document order: one awaited call per descendant, the
    replies appended in that order, and the pass ends at the first call
    that fails.  When it returns normally it has awaited exactly one
    call per descendant and returns the concatenation of the replies. *)
Theorem serialize_awaits_descendants_in_order {remote : Type}
    (respond : remote → request → remote * reply)
    (T : pyobj) (s : session remote) :
  is_tree T = true →
  html_from_tree respond T s
  = serve respond (requests_of (descendants T)) "" s ∧
  (∀ s' r, html_from_tree respond T s = (s', Ok r) →
     ∃ ms, length ms = length (descendants T) ∧
           awaited s' = awaited s
                        ++ zip (requests_of (descendants T)) (Ok <$> ms) ∧
           r = concat_text ms).
Proof.
  intros Htree. split; [by apply html_from_tree_serve|].
  intros s' r. rewrite (html_from_tree_serve respond T s Htree).
  intros Hrun. destruct (serve_ok respond _ _ _ _ _ Hrun) as (ms & Hlen & Hlog & ->).
  exists ms. split_and!; [|done..].
  by rewrite Hlen, requests_of_length by by apply descendants_are_trees.
Qed.

Lemma serialize_awaits_descendants_in_order_witness :
  html_from_tree speeding_up sample_tree
    {| peer := 0; clock := 0; awaited := [] |}
  = serve speeding_up (requests_of (descendants sample_tree)) ""
      {| peer := 0; clock := 0; awaited := [] |} ∧
  (∀ s' r,
     html_from_tree speeding_up sample_tree
       {| peer := 0; clock := 0; awaited := [] |} = (s', Ok r) →
     ∃ ms, length ms = length (descendants sample_tree) ∧
           awaited s'
           = awaited {| peer := 0; clock := 0; awaited := [] |}
             ++ zip (requests_of (descendants sample_tree)) (Ok <$> ms) ∧
           r = concat_text ms).
Proof.
  apply (serialize_awaits_descendants_in_order speeding_up sample_tree).
  reflexivity.
Defined.

(** On the sample tree: four calls, for the nodes 1, 3, 4 and 2. *)
Example serialize_sample_tree :
  html_from_tree speeding_up sample_tree
    {| peer := 0; clock := 0; awaited := [] |}
  = ({| peer := 4; clock := 60;
        awaited := [(GetOuterHtml 1, Ok "<a/>"); (ElementGetHtml 3, Ok "<c/>");
                    (GetOuterHtml 4, Ok "<c/>"); (ElementGetHtml 2, Ok "<b/>")] |},
     Ok "<a/><c/><c/><b/>").
Proof. by vm_compute. Qed.

(** ** The queries on values that are no trees *)

Section find_malformed.
Variable P : pyobj → bool.

Lemma all_loop_malformed cs out :
  Forall (λ c, is_tree c = false →
               filter_recurse_all P c = Raise no_children_attr) cs →
  forallb is_tree cs = false →
  all_loop P (filter_recurse_all P) cs out = Raise no_children_attr.
Proof.
  intros Hcs. revert out.
  induction Hcs as [|c cs Hc _ IH]; intros out Hbad; [done|].
  cbn in Hbad. cbn [all_loop]. destruct (is_tree c) eqn:Hct.
  - rewrite (filter_recurse_all_matches P c Hct). by apply IH.
  - by rewrite Hc.
Qed.

Lemma filter_recurse_all_malformed v :
  is_tree v = false → filter_recurse_all P v = Raise no_children_attr.
Proof.
  induction v as [b|i c|i c cs IH] using pyobj_rose_ind; intros Hbad;
    [done..|].
  cbn in Hbad. cbn [filter_recurse_all]. by apply all_loop_malformed.
Qed.

Lemma first_loop_raises cs e :
  Forall (λ c, ∀ e', filter_recurse P c = Raise e' →
                     e' = no_children_attr ∧ is_tree c = false) cs →
  first_loop P (filter_recurse P) cs = Raise e →
  e = no_children_attr ∧ forallb is_tree cs = false.
Proof.
  induction 1 as [|c cs Hc _ IH]; [done|]. cbn [first_loop forallb].
  destruct (P c); [done|].
  destruct (filter_recurse P c) as [[r|]|e'] eqn:Hrun.
  - destruct (truthy r); [done|]. intros Hrest.
    destruct (IH Hrest) as [-> ->]. by rewrite andb_false_r.
  - intros Hrest. destruct (IH Hrest) as [-> ->]. by rewrite andb_false_r.
  - intros [= <-]. destruct (Hc e' eq_refl) as [-> ->]. done.
Qed.

Lemma filter_recurse_raises v e :
  filter_recurse P v = Raise e → e = no_children_attr ∧ is_tree v = false.
Proof.
  revert e. induction v as [b|i c|i c cs IH] using pyobj_rose_ind;
    intros e; cbn [filter_recurse is_tree].
  - by intros [= <-].
  - done.
  - by apply first_loop_raises.
Qed.
End find_malformed.

(** X4.  Whatever the predicate, [filter_recurse_all] raises the
    [TypeError] of the module exactly when the value it is given, or a
    value below it, has no [.children]; on every other value it returns
    the matching descendants in document order.  No partial list comes
    out of a failed call.  [filter_recurse] is the more lenient of the
    two: where [filter_recurse_all] returns a list it returns the head of
    that list, and it only ever raises that same [TypeError], and only on
    values on which [filter_recurse_all] raises too. *)
Theorem find_all_raises_exactly_on_malformed_values
    (P : pyobj → bool) (v : pyobj) :
  filter_recurse_all P v
  = (if is_tree v then Ok (List.filter P (descendants v))
     else Raise no_children_attr) ∧
  (∀ l, filter_recurse_all P v = Ok l → filter_recurse P v = Ok (head l)) ∧
  (∀ e, filter_recurse P v = Raise e →
        e = no_children_attr ∧
        filter_recurse_all P v = Raise no_children_attr).
Proof.
  assert (filter_recurse_all P v
          = (if is_tree v then Ok (List.filter P (descendants v))
             else Raise no_children_attr)) as Hall.
  { destruct (is_tree v) eqn:Htree.
    - rewrite (filter_recurse_all_matches P v Htree).
      unfold descendants, matches_at. by rewrite filter_hit_nodes.
    - by apply filter_recurse_all_malformed. }
  split_and!; [done| |].
  - intros l. rewrite Hall. destruct (is_tree v) eqn:Htree; [|done].
    intros [= <-]. rewrite (filter_recurse_matches P v Htree).
    unfold descendants, matches_at. by rewrite filter_hit_nodes.
  - intros e Hraise. destruct (filter_recurse_raises P v e Hraise) as [-> Hbad].
    by rewrite Hall, Hbad.
Qed.

(** ** What a drain does and never does *)

Section drain_safety.
Variable stop_outcome : list event → Browser → option exn.
Variable rmtree_outcome : list event → string → option exn.

Lemma retry_loop_events attempts b tr :
  ∃ new,
    (retry_loop rmtree_outcome attempts b tr).1 = tr ++ new ∧
    Forall (teardown_event b) new.
Proof.
  revert tr. induction attempts as [|attempt rest IH]; intros tr.
  { exists []. by rewrite (right_id_L [] (++)). }
  cbn [retry_loop]. destruct (config b) as [c|] eqn:Hc; [|apply IH].
  destruct (custom_data_dir c) eqn:Hown; [apply IH|].
  assert (teardown_event b (Rmtree (user_data_dir c))) as Hrm
    by (by exists c).
  assert (teardown_event b (Sleep 150)) as Hsl by (split; [done|by exists c]).
  destruct (rmtree_outcome tr (user_data_dir c)) as [e|].
  - assert (is_lock_error e = true →
            teardown_event b (LogDebug (user_data_dir c) e)) as Hlog
      by (intros ?; split; [done|by exists c]).
    assert (∃ new, tr ++ [Rmtree (user_data_dir c)] = tr ++ new ∧
                   Forall (teardown_event b) new) as Hone
      by (exists [Rmtree (user_data_dir c)]; split;
          [done|auto using Forall_cons_2, Forall_nil_2]).
    assert (is_lock_error e = true →
            ∃ new,
              (if attempt =? 4
               then ((tr ++ [Rmtree (user_data_dir c)])
                       ++ [LogDebug (user_data_dir c) e], Ok ())
               else retry_loop rmtree_outcome rest b
                      ((tr ++ [Rmtree (user_data_dir c)]) ++ [Sleep 150])).1
              = tr ++ new ∧ Forall (teardown_event b) new) as Hretry.
    { intros Hlock. destruct (attempt =? 4).
      - exists [Rmtree (user_data_dir c); LogDebug (user_data_dir c) e].
        rewrite <- (assoc_L (++)). split; [done|].
        auto using Forall_cons_2, Forall_nil_2.
      - destruct (IH ((tr ++ [Rmtree (user_data_dir c)]) ++ [Sleep 150]))
          as (new & -> & Hnew).
        exists (Rmtree (user_data_dir c) :: Sleep 150 :: new).
        rewrite <- !(assoc_L (++)). split; [done|].
        auto using Forall_cons_2. }
    destruct e; cbn [is_OSError]; auto.
  - destruct (IH (tr ++ [Rmtree (user_data_dir c)])) as (new & -> & Hnew).
    exists (Rmtree (user_data_dir c) :: new).
    rewrite <- (assoc_L (++)). split; [done|]. auto using Forall_cons_2.
Qed.

Lemma stop_if_running_events b tr :
  ∃ new,
    (stop_if_running stop_outcome b tr).1 = tr ++ new ∧
    Forall (teardown_event b) new.
Proof.
  unfold stop_if_running. destruct (stopped b) eqn:Hs.
  - exists []. by rewrite (right_id_L [] (++)).
  - exists [Stop (pid b)]. split; [done|].
    apply Forall_cons_2; [by split|apply Forall_nil_2].
Qed.

Lemma log_removed_events b tr :
  ∃ new,
    (log_removed b tr).1 = tr ++ new ∧ Forall (teardown_event b) new.
Proof.
  unfold log_removed. destruct (config b) as [c|] eqn:Hc.
  - exists [LogInfo (user_data_dir c)]. split; [done|].
    apply Forall_cons_2; [by exists c|apply Forall_nil_2].
  - exists []. by rewrite (right_id_L [] (++)).
Qed.

Lemma teardown_events b tr :
  ∃ new,
    (teardown stop_outcome rmtree_outcome b tr).1 = tr ++ new ∧
    Forall (teardown_event b) new.
Proof.
  unfold teardown.
  destruct (stop_if_running_events b tr) as (new1 & Hrun1 & Hnew1).
  destruct (stop_if_running stop_outcome b tr) as [tr1 [[]|e]];
    cbn in Hrun1; subst tr1; [|by exists new1].
  destruct (retry_loop_events (seq 0 5) b (tr ++ new1))
    as (new2 & Hrun2 & Hnew2).
  destruct (retry_loop rmtree_outcome (seq 0 5) b (tr ++ new1))
    as [tr2 [[]|e]]; cbn in Hrun2; subst tr2.
  - destruct (log_removed_events b ((tr ++ new1) ++ new2))
      as (new3 & -> & Hnew3).
    exists (new1 ++ new2 ++ new3). rewrite !(assoc_L (++)).
    split; [done|]. rewrite !Forall_app. by split_and!.
  - exists (new1 ++ new2). rewrite (assoc_L (++)).
    split; [done|]. by apply Forall_app.
Qed.

Lemma deconstruct_browser_events instances tr :
  ∃ new,
    (deconstruct_browser stop_outcome rmtree_outcome instances tr).1
    = tr ++ new ∧
    Forall (λ ev, ∃ b, b ∈ instances ∧ teardown_event b ev) new.
Proof.
  revert tr. induction instances as [|b rest IH]; intros tr.
  { exists []. by rewrite (right_id_L [] (++)). }
  cbn [deconstruct_browser].
  destruct (teardown_events b tr) as (new1 & Hrun1 & Hnew1).
  assert (Forall (λ ev, ∃ b', b' ∈ b :: rest ∧ teardown_event b' ev) new1)
    as Hnew1'.
  { eapply Forall_impl; [done|]. intros ev Hev. exists b. split; [left|done]. }
  destruct (teardown stop_outcome rmtree_outcome b tr) as [tr1 [[]|e]];
    cbn in Hrun1; subst tr1; [|by exists new1].
  destruct (IH (tr ++ new1)) as (new2 & -> & Hnew2).
  exists (new1 ++ new2). rewrite (assoc_L (++)). split; [done|].
  apply Forall_app. split; [done|].
  eapply Forall_impl; [done|]. intros ev (b' & Hb' & Hev).
  exists b'. split; [by right|done].
Qed.
End drain_safety.

(** X5.  Whatever the processes and the file system do, a drain only
    adds to the history, and everything it adds is justified by a handle
    of the registry: [stop()] is called only on handles that are not
    stopped; a directory is removed only if a registered handle owns it
    (no caller-supplied directory is touched); a failure is logged only
    for a permission or lock error on such a directory; every sleep
    lasts 150 ms. *)
Theorem drain_touches_only_what_the_registry_owns
    (stop_outcome : list event → Browser → option exn)
    (rmtree_outcome : list event → string → option exn)
    (instances : list Browser) (tr : list event) :
  ∃ new,
    (deconstruct_browser stop_outcome rmtree_outcome instances tr).1
    = tr ++ new ∧
    (∀ p, Stop p ∈ new →
          ∃ b, b ∈ instances ∧ pid b = p ∧ stopped b = false) ∧
    (∀ d, Rmtree d ∈ new →
          ∃ b c, b ∈ instances ∧ config b = Some c ∧
                 custom_data_dir c = false ∧ user_data_dir c = d) ∧
    (∀ d e, LogDebug d e ∈ new →
          is_lock_error e = true ∧
          ∃ b c, b ∈ instances ∧ config b = Some c ∧
                 custom_data_dir c = false ∧ user_data_dir c = d) ∧
    (∀ ms, Sleep ms ∈ new → ms = 150).
Proof.
  destruct (deconstruct_browser_events stop_outcome rmtree_outcome
              instances tr) as (new & Hrun & Hnew).
  exists new. rewrite Forall_forall in Hnew. split_and!; [done|..].
  - intros p (b & Hb & -> & Hs)%Hnew. by exists b.
  - intros d (b & Hb & c & Hc & Hown & ->)%Hnew. by exists b, c.
  - intros d e (b & Hb & Hlock & c & Hc & Hown & ->)%Hnew.
    split; [done|]. by exists b, c.
  - by intros ms (b & Hb & -> & _)%Hnew.
Qed.

(** ** The effort of a drain is bounded *)



Section drain_effort.
Variable stop_outcome : list event → Browser → option exn.
Variable rmtree_outcome : list event → string → option exn.


End drain_effort.


(** ** Transient locks and errors that are not contained *)

Section transient.
Variable rmtree_outcome : list event → string → option exn.

Lemma retry_loop_after_failures k a n b c tr :
  config b = Some c → custom_data_dir c = false →
  a + k ≤ 4 →
  (∀ j, j < k →
        ∃ e, rmtree_outcome (tr ++ failed_attempts j (user_data_dir c))
               (user_data_dir c) = Some e ∧ is_lock_error e = true) →
  retry_loop rmtree_outcome (seq a (k + n)) b tr
  = retry_loop rmtree_outcome (seq (a + k) n) b
      (tr ++ failed_attempts k (user_data_dir c)).
Proof.
  intros Hc Hown. revert a tr. induction k as [|k IH]; intros a tr Ha Hlock.
  { cbn. by rewrite Nat.add_0_r, (right_id_L [] (++)). }
  destruct (Hlock 0) as (e & He & Hle); [lia|].
  cbn [failed_attempts] in He. rewrite (right_id_L [] (++)) in He.
  cbn [Nat.add seq].
  rewrite (retry_loop_locked rmtree_outcome a _ b c tr e Hc Hown He Hle).
  destruct (Nat.eqb_spec a 4) as [->|_]; [lia|].
  rewrite (IH (S a)); [|lia|].
  - cbn [failed_attempts]. by rewrite Nat.add_succ_r, (assoc_L (++)).
  - intros j Hj. destruct (Hlock (S j)) as (e' & He' & Hle'); [lia|].
    exists e'. split; [|done]. cbn [failed_attempts] in He'.
    by rewrite (assoc_L (++)) in He'.
Qed.

(** An exception that is no [OSError] leaves the loop at once. *)
Lemma retry_loop_unexpected attempt rest b c tr e :
  config b = Some c → custom_data_dir c = false →
  rmtree_outcome tr (user_data_dir c) = Some e → is_OSError e = false →
  retry_loop rmtree_outcome (attempt :: rest) b tr
  = (tr ++ [Rmtree (user_data_dir c)], Raise e).
Proof.
  intros Hc Hown He Hos. cbn [retry_loop]. rewrite Hc, Hown, He.
  by destruct e.
Qed.

(** Without a configuration every attempt is skipped. *)
Lemma retry_loop_no_config attempts b tr :
  config b = None →
  retry_loop rmtree_outcome attempts b tr = (tr, Ok ()).
Proof.
  intros Hc. induction attempts as [|attempt rest IH]; [done|].
  cbn [retry_loop]. by rewrite Hc.
Qed.
End transient.

(** X7.  A lock that goes away is absorbed.  A handle owns its directory
    [d]; the first [k] removal attempts (at most four) fail with a
    permission or lock error.  If the next attempt finds [d] gone, the
    retry loop ends normally after [k] sleeps and [k + 1] attempts, and
    nothing is logged as a failure.  If the next attempt succeeds and
    at least one attempt is left, the loop makes one more attempt at
    once, without sleeping, and ends when that one finds [d] gone. *)
Theorem retry_absorbs_transient_lock
    (rmtree_outcome : list event → string → option exn)
    (b : Browser) (c : Config) (tr : list event) (k : nat) :
  config b = Some c → custom_data_dir c = false → k ≤ 4 →
  (∀ j, j < k →
        ∃ e, rmtree_outcome (tr ++ failed_attempts j (user_data_dir c))
               (user_data_dir c) = Some e ∧ is_lock_error e = true) →
  let d := user_data_dir c in
  (rmtree_outcome (tr ++ failed_attempts k d) d = Some FileNotFoundError →
   retry_loop rmtree_outcome (seq 0 5) b tr
   = (tr ++ failed_attempts k d ++ [Rmtree d], Ok ())) ∧
  (k ≤ 3 →
   rmtree_outcome (tr ++ failed_attempts k d) d = None →
   rmtree_outcome (tr ++ failed_attempts k d ++ [Rmtree d]) d
   = Some FileNotFoundError →
   retry_loop rmtree_outcome (seq 0 5) b tr
   = (tr ++ failed_attempts k d ++ [Rmtree d; Rmtree d], Ok ())).
Proof.
  intros Hc Hown Hk Hlock d. split.
  - intros Hgone.
    replace 5 with (k + S (4 - k)) by lia.
    rewrite (retry_loop_after_failures rmtree_outcome k 0 _ b c tr
               Hc Hown); [|lia|done].
    cbn [seq retry_loop]. rewrite Hc, Hown. fold d. rewrite Hgone.
    by rewrite <- (assoc_L (++)).
  - intros Hk3 Hdone Hgone.
    replace 5 with (k + S (S (3 - k))) by lia.
    rewrite (retry_loop_after_failures rmtree_outcome k 0 _ b c tr
               Hc Hown); [|lia|done].
    cbn [seq retry_loop]. rewrite Hc, Hown. fold d. rewrite Hdone.
    rewrite <- (assoc_L (++)), Hgone.
    by rewrite <- !(assoc_L (++)).
Qed.

Lemma retry_absorbs_transient_lock_witness :
  (rmtree_locked_for 2 ([] ++ failed_attempts 2 "/tmp/p1") "/tmp/p1"
   = Some FileNotFoundError →
   retry_loop (rmtree_locked_for 2) (seq 0 5) handle_1 []
   = ([] ++ failed_attempts 2 "/tmp/p1" ++ [Rmtree "/tmp/p1"], Ok ())) ∧
  (2 ≤ 3 →
   rmtree_locked_for 2 ([] ++ failed_attempts 2 "/tmp/p1") "/tmp/p1" = None →
   rmtree_locked_for 2
     ([] ++ failed_attempts 2 "/tmp/p1" ++ [Rmtree "/tmp/p1"]) "/tmp/p1"
   = Some FileNotFoundError →
   retry_loop (rmtree_locked_for 2) (seq 0 5) handle_1 []
   = ([] ++ failed_attempts 2 "/tmp/p1" ++ [Rmtree "/tmp/p1"; Rmtree "/tmp/p1"],
      Ok ())).
Proof.
  apply (retry_absorbs_transient_lock (rmtree_locked_for 2) handle_1
           {| custom_data_dir := false; user_data_dir := "/tmp/p1" |} [] 2).
  - reflexivity.
  - reflexivity.
  - lia.
  - intros j Hj. exists PermissionError.
    destruct j as [|[|j]]; [by vm_compute..|lia].
Defined.

(** Two locked attempts, then the directory is gone. *)
Example retry_locked_twice :
  retry_loop (rmtree_locked_for 2) (seq 0 5) handle_1 []
  = ([Rmtree "/tmp/p1"; Sleep 150; Rmtree "/tmp/p1"; Sleep 150;
      Rmtree "/tmp/p1"], Ok ()).
Proof. by vm_compute. Qed.

(** X8.  An exception of the directory removal that is no [OSError] is
    not contained.  After the handles [pre] have been torn down and the
    handle [b] has been stopped: if the first removal of the directory
    [b] owns raises such an exception, the drain raises it at once,
    without retry, sleep or log line, and the handles after [b] are left
    as they are. *)
Theorem drain_aborts_on_unexpected_removal_error
    (stop_outcome : list event → Browser → option exn)
    (rmtree_outcome : list event → string → option exn)
    (pre rest : list Browser) (b : Browser) (c : Config) (e : exn)
    (tr tr1 tr2 : list event) :
  deconstruct_browser stop_outcome rmtree_outcome pre tr = (tr1, Ok ()) →
  stop_if_running stop_outcome b tr1 = (tr2, Ok ()) →
  config b = Some c → custom_data_dir c = false →
  rmtree_outcome tr2 (user_data_dir c) = Some e → is_OSError e = false →
  deconstruct_browser stop_outcome rmtree_outcome (pre ++ b :: rest) tr
  = (tr2 ++ [Rmtree (user_data_dir c)], Raise e).
Proof.
  intros Hpre Hstop Hc Hown He Hos.
  rewrite (deconstruct_browser_app _ _ pre (b :: rest) tr tr1 Hpre).
  cbn [deconstruct_browser].
  rewrite (teardown_after_stop _ _ b tr1 tr2 Hstop).
  change (seq 0 5) with (0 :: seq 1 4).
  by rewrite (retry_loop_unexpected rmtree_outcome 0 _ b c tr2 e
                Hc Hown He Hos).
Qed.

Lemma drain_aborts_on_unexpected_removal_error_witness :
  deconstruct_browser stop_ok (rmtree_broken_at "/tmp/p3")
    ([handle_2] ++ handle_3 :: [handle_1]) []
  = ([Rmtree "/tmp/p2"; Rmtree "/tmp/p2"; LogInfo "/tmp/p2"; Stop 3]
       ++ [Rmtree "/tmp/p3"], Raise (OtherError 1)).
Proof.
  apply (drain_aborts_on_unexpected_removal_error stop_ok
           (rmtree_broken_at "/tmp/p3") [handle_2] [handle_1] handle_3
           {| custom_data_dir := false; user_data_dir := "/tmp/p3" |}
           (OtherError 1) []
           [Rmtree "/tmp/p2"; Rmtree "/tmp/p2"; LogInfo "/tmp/p2"]);
    by vm_compute.
Defined.

(** X9.  A handle without a configuration is not cleaned up and ends
    the drain.  After the handles [pre] have been torn down and such a
    handle [b] has been stopped, no removal is attempted for [b], and
    the drain raises [AttributeError] where it would write the closing
    log line; the handles after [b] are left as they are. *)
Theorem drain_aborts_on_handle_without_config
    (stop_outcome : list event → Browser → option exn)
    (rmtree_outcome : list event → string → option exn)
    (pre rest : list Browser) (b : Browser) (tr tr1 tr2 : list event) :
  deconstruct_browser stop_outcome rmtree_outcome pre tr = (tr1, Ok ()) →
  stop_if_running stop_outcome b tr1 = (tr2, Ok ()) →
  config b = None →
  deconstruct_browser stop_outcome rmtree_outcome (pre ++ b :: rest) tr
  = (tr2, Raise AttributeError).
Proof.
  intros Hpre Hstop Hc.
  rewrite (deconstruct_browser_app _ _ pre (b :: rest) tr tr1 Hpre).
  cbn [deconstruct_browser].
  rewrite (teardown_after_stop _ _ b tr1 tr2 Hstop).
  rewrite (retry_loop_no_config rmtree_outcome _ b tr2 Hc).
  unfold log_removed. by rewrite Hc.
Qed.

Lemma drain_aborts_on_handle_without_config_witness :
  deconstruct_browser stop_ok rmtree_once
    ([handle_2] ++ handle_4 :: [handle_1]) []
  = ([Rmtree "/tmp/p2"; Rmtree "/tmp/p2"; LogInfo "/tmp/p2"; Stop 4],
     Raise AttributeError).
Proof.
  apply (drain_aborts_on_handle_without_config stop_ok rmtree_once
           [handle_2] [handle_1] handle_4 []
           [Rmtree "/tmp/p2"; Rmtree "/tmp/p2"; LogInfo "/tmp/p2"]);
    by vm_compute.
Defined.

(** *** Removal takes out nothing but nodes with the target's identity *)

Lemma keeps_refl keep h : keeps keep h h.
Proof. intros a i cs Ha. by exists cs. Qed.

Lemma keeps_trans keep h1 h2 h3 :
  keeps keep h1 h2 → keeps keep h2 h3 → keeps keep h1 h3.
Proof.
  intros H12 H23 a i cs Ha.
  destruct (H12 a i cs Ha) as (cs2 & Ha2 & E2).
  destruct (H23 a i cs2 Ha2) as (cs3 & Ha3 & E3).
  exists cs3. split; [done|congruence].
Qed.

Lemma keeps_insert keep h tree tid cs cs' :
  h !! tree = Some (ONode tid (Some cs)) →
  List.filter keep cs' = List.filter keep cs →
  keeps keep h (<[tree := ONode tid (Some cs')]> h).
Proof.
  intros Ht Hf a i ds Ha. destruct (decide (a = tree)) as [->|Hne].
  - rewrite lookup_insert_eq. rewrite Ht in Ha. injection Ha as <- <-.
    by exists cs'.
  - rewrite lookup_insert_ne by done. by exists ds.
Qed.

Lemma getattr_id_lookup h a i :
  getattr_id h a = Some (Ok i) ↔ ∃ k, h !! a = Some (ONode i k).
Proof.
  unfold getattr_id. destruct (h !! a) as [[j k|b]|]; split;
    try (by intros [? ?]); try done.
  - intros [= ->]. by exists k.
  - by intros [k' [= -> _]].
Qed.

Section remove_keeps.
Variable node_eq : heap → nat → nat → bool.
Hypothesis Hresp : eq_respects_id node_eq.
Variable h0 : heap.
Variable nid : Z.

(** What [l.remove(x)] takes out has the identity of [x]. *)
Lemma list_remove_keeps h x l l' :
  shrinks h0 h → getattr_id h x = Some (Ok nid) →
  list_remove node_eq h x l = Some l' →
  List.filter (other_identity h0 nid) l'
  = List.filter (other_identity h0 nid) l.
Proof.
  intros Hs Hx. apply getattr_id_lookup in Hx as [kx Hx].
  revert l'. induction l as [|y l IH]; intros l'; cbn [list_remove]; [done|].
  destruct ((y =? x) || node_eq h y x) eqn:E.
  - intros [= <-]. cbn [List.filter].
    assert (other_identity h0 nid y = false) as ->; [|done].
    unfold other_identity.
    destruct (getattr_id h0 y) as [[j|e]|] eqn:Hy; [|done..].
    apply getattr_id_lookup in Hy as [ky Hy].
    destruct (Hs y _ Hy) as (o' & Hy' & Hoo').
    assert (∃ ky', h !! y = Some (ONode j ky')) as [ky' Hy2].
    { destruct ky as [ds|], o' as [j' [ds'|]|b']; cbn in Hoo';
        try congruence.
      - destruct Hoo' as [-> _]. by eauto.
      - injection Hoo' as ->. by eauto. }
    apply orb_true_iff in E as [->%Nat.eqb_eq|E].
    + rewrite Hx in Hy2. injection Hy2 as -> _. by rewrite Z.eqb_refl.
    + rewrite (Hresp h y x j nid ky' kx Hy2 Hx E). by rewrite Z.eqb_refl.
  - destruct (list_remove node_eq h x l) as [l2|]; [|done].
    intros [= <-]. cbn [List.filter]. by rewrite (IH l2 eq_refl).
Qed.

Lemma remove_loop_keeps rec n h tree node i h' r :
  getattr_id h0 node = Some (Ok nid) →
  (∀ h1 c h2 r2, rec h1 c = Some (h2, r2) → shrinks h1 h2) →
  (∀ h1 c h2 r2, shrinks h0 h1 → rec h1 c = Some (h2, r2) →
                 keeps (other_identity h0 nid) h1 h2) →
  shrinks h0 h →
  remove_loop node_eq rec n h tree node i = Some (h', r) →
  keeps (other_identity h0 nid) h h'.
Proof.
  intros Hn Hrec_s Hrec. revert h i.
  induction n as [|n IH]; intros h i Hs; cbn [remove_loop];
    destruct (h !! tree) as [[tid [cs|]|b]|] eqn:Ht; try done;
    destruct (cs !! i) as [child|] eqn:Hi; try done;
    try (intros [= <- _]; apply keeps_refl).
  assert (getattr_id h node = Some (Ok nid)) as ->.
  { rewrite (shrinks_getattr_id h0 h node Hs); [done|].
    apply getattr_id_lookup in Hn as [k ->]. by eexists. }
  destruct (getattr_id h child) as [[cid|e]|] eqn:Hc; try done;
    try (intros [= <- _]; apply keeps_refl).
  destruct (Z.eqb_spec cid nid) as [->|Hne].
  - destruct (list_remove node_eq h child cs) as [cs'|] eqn:Hrm;
      [|intros [= <- _]; apply keeps_refl].
    pose proof (list_remove_keeps h child cs cs' Hs Hc Hrm) as Hf.
    pose proof (keeps_insert _ h tree tid cs cs' Ht Hf) as Hk1.
    assert (shrinks h (<[tree := ONode tid (Some cs')]> h)) as Hs1.
    { eapply shrinks_insert; [done|]. by eapply list_remove_sublist. }
    assert (shrinks h0 (<[tree := ONode tid (Some cs')]> h)) as Hs01
      by by eapply shrinks_trans.
    destruct (rec _ child) as [[h2 [r2|e]]|] eqn:Hrun; [| |done].
    + intros Hloop. eapply keeps_trans; [exact Hk1|].
      eapply keeps_trans; [by eapply Hrec|].
      eapply IH; [|exact Hloop].
      eapply shrinks_trans; [exact Hs01|]. by eapply Hrec_s.
    + intros [= <- _]. eapply keeps_trans; [exact Hk1|]. by eapply Hrec.
  - destruct (rec h child) as [[h2 [r2|e]]|] eqn:Hrun; [| |done].
    + intros Hloop. eapply keeps_trans; [by eapply Hrec|].
      eapply IH; [|exact Hloop].
      eapply shrinks_trans; [exact Hs|]. by eapply Hrec_s.
    + intros [= <- _]. by eapply Hrec.
Qed.

Lemma remove_from_tree_keeps fuel h tree node h' r :
  getattr_id h0 node = Some (Ok nid) → shrinks h0 h →
  remove_from_tree node_eq fuel h tree node = Some (h', r) →
  keeps (other_identity h0 nid) h h'.
Proof.
  intros Hn. revert h tree h' r.
  induction fuel as [|fuel IH]; intros h tree h' r Hs;
    cbn [remove_from_tree];
    destruct (h !! tree) as [[tid [[|c cs]|]|b]|] eqn:Ht; try done;
    try (intros [= <- _]; apply keeps_refl).
  destruct (remove_loop _ _ _ _ _ _ _) as [[h2 r2]|] eqn:Hloop; [|done].
  intros Hr. assert (h' = h2) as -> by (destruct r2; congruence).
  eapply remove_loop_keeps; [done| | |done|exact Hloop].
  - intros h1 d h3 r3. apply remove_from_tree_shrinks.
  - intros h1 d h3 r3 Hs1. by apply IH.
Qed.
End remove_keeps.

(** X10.  [remove_from_tree] takes nothing out of a tree but nodes with
    the target's identity.  On every stored tree and for every target
    node, under every [==] for which equal nodes have equal identities:
    the call returns, and every child list of the store is afterwards a
    sublist of what it was, in which the children whose identity differs
    from the target's are all still there, in their order. *)
Theorem remove_keeps_other_identities
    (node_eq : heap → nat → nat → bool)
    (k : nat) (h : heap) (tree node : nat) (nid : Z) :
  eq_respects_id node_eq →
  is_Some (load k h tree) → getattr_id h node = Some (Ok nid) →
  ∃ h' r,
    remove_from_tree node_eq k h tree node = Some (h', r) ∧
    ∀ a i cs, h !! a = Some (ONode i (Some cs)) →
      ∃ cs', h' !! a = Some (ONode i (Some cs')) ∧
             cs' `sublist_of` cs ∧
             List.filter (other_identity h nid) cs'
             = List.filter (other_identity h nid) cs.
Proof.
  intros Hresp Hload Hn.
  assert (is_Some (h !! node)) as Hnode.
  { apply getattr_id_lookup in Hn as [kn ->]. by eexists. }
  destruct (remove_from_tree_total node_eq k h tree node Hload Hnode)
    as [[h' r] Hrun].
  exists h', r. split; [done|]. intros a i cs Ha.
  pose proof (remove_from_tree_shrinks _ _ _ _ _ _ _ Hrun) as Hs.
  destruct (shrinks_children _ _ _ _ _ Hs Ha) as (cs' & Ha' & Hsub).
  exists cs'. split_and!; [done..|].
  destruct (remove_from_tree_keeps node_eq Hresp h nid k h tree node h' r
              Hn (shrinks_refl h) Hrun a i cs Ha) as (cs2 & Ha2 & Hf).
  congruence.
Qed.

Lemma remove_keeps_other_identities_witness :
  ∃ h' r,
    remove_from_tree same_object 2 heap_siblings 0 2 = Some (h', r) ∧
    ∀ a i cs, heap_siblings !! a = Some (ONode i (Some cs)) →
      ∃ cs', h' !! a = Some (ONode i (Some cs')) ∧
             cs' `sublist_of` cs ∧
             List.filter (other_identity heap_siblings 2) cs'
             = List.filter (other_identity heap_siblings 2) cs.
Proof.
  apply (remove_keeps_other_identities same_object 2 heap_siblings 0 2 2%Z).
  - exact same_object_respects_id.
  - eexists. reflexivity.
  - reflexivity.
Defined.

(** *** Removal when the target's identity occurs once *)

Lemma stored_tree_node k h a :
  stored_tree k h a → ∃ i kids, h !! a = Some (ONode i kids).
Proof. intros (T & Hl & Ht). by eapply load_is_tree_node. Qed.

Lemma stored_tree_inv k h a :
  stored_tree (S k) h a →
  ∃ i kids, h !! a = Some (ONode i kids) ∧
    ∀ cs, kids = Some cs → ∀ c, c ∈ cs → stored_tree k h c.
Proof.
  intros (T & Hl & Ht). cbn in Hl.
  destruct (h !! a) as [[i [cs|]|b]|]; [| | |done].
  - destruct (mapM (load k h) cs) as [kids|] eqn:Hkids; [|done].
    injection Hl as <-. cbn in Ht. exists i, (Some cs). split; [done|].
    intros ? [= <-] c Hc.
    apply mapM_Some_1 in Hkids.
    apply Is_true_true, forallb_True in Ht.
    apply list_elem_of_lookup_1 in Hc as [j Hj].
    destruct (Forall2_lookup_l _ _ _ _ _ Hkids Hj) as (Tc & HTc & Hlc).
    exists Tc. split; [done|].
    rewrite Forall_lookup in Ht. by apply Is_true_true, (Ht j).
  - exists i, None. by split.
  - injection Hl as <-. done.
Qed.

Lemma stored_tree_intro k h a i cs :
  h !! a = Some (ONode i (Some cs)) →
  (∀ c, c ∈ cs → stored_tree k h c) →
  stored_tree (S k) h a.
Proof.
  intros Ha Hkids.
  assert (∃ kids, mapM (load k h) cs = Some kids ∧
                  forallb is_tree kids = true) as (kids & Hm & Ht).
  { clear Ha. induction cs as [|c cs IH].
    - by exists [].
    - destruct (Hkids c) as (Tc & Hlc & Htc); [by left|].
      destruct IH as (kids & Hm & Ht).
      { intros d Hd. apply Hkids. by right. }
      exists (Tc :: kids). cbn. rewrite Hlc. cbn. rewrite Hm. cbn.
      split; [done|]. by rewrite Htc, Ht. }
  exists (Node i CdpNode (Some kids)). cbn. rewrite Ha, Hm. by split.
Qed.

Lemma stored_tree_shrinks k h h' a :
  shrinks h h' → stored_tree k h a → stored_tree k h' a.
Proof.
  intros Hs. revert a. induction k as [|k IH]; intros a Hst.
  { by destruct Hst as (T & Hl & _). }
  destruct (stored_tree_inv k h a Hst) as (i & kids & Ha & Hkids).
  destruct (Hs a _ Ha) as (o' & Ha' & Hoo').
  destruct kids as [cs|]; cbn in Hoo'.
  - destruct o' as [i' [cs'|]|b']; try congruence.
    destruct Hoo' as [<- Hsub].
    apply (stored_tree_intro k h' a i cs' Ha').
    intros c Hc. apply IH, (Hkids cs eq_refl). by eapply sublist_subseteq.
  - subst o'. exists (Node i CdpNode None). cbn. by rewrite Ha'.
Qed.

Lemma reaches_trans h a b c : reaches h a b → reaches h b c → reaches h a c.
Proof.
  intros Hab. induction 1 as [|x i cs y Hx IH Hlk Hy]; [done|].
  by eapply reaches_child.
Qed.

Lemma reaches_inv h r b :
  reaches h r b →
  b = r ∨ ∃ i cs c, h !! r = Some (ONode i (Some cs)) ∧ c ∈ cs ∧
                    reaches h c b.
Proof.
  induction 1 as [|a i cs c Ha IH Hlk Hc]; [by left|]. right.
  destruct IH as [->|(i' & cs' & c' & Hr & Hc' & Hreach)].
  - exists i, cs, c. split_and!; [done..|constructor].
  - exists i', cs', c'. split_and!; [done..|]. by eapply reaches_child.
Qed.

Section remove_unique.
Variable node_eq : heap → nat → nat → bool.
Hypothesis Hresp : eq_respects_id node_eq.
Variable h : heap.
Variables tree node p i c : nat.
Variables nid pid : Z.
Variable cs : list nat.
Hypothesis Hnode : getattr_id h node = Some (Ok nid).
Hypothesis Hp : h !! p = Some (ONode pid (Some cs)).
Hypothesis Hi : cs !! i = Some c.
Hypothesis Hc : getattr_id h c = Some (Ok nid).
Hypothesis Huniq :
  ∀ a ia ds j d,
    reaches h tree a → h !! a = Some (ONode ia (Some ds)) →
    ds !! j = Some d → getattr_id h d = Some (Ok nid) → a = p ∧ j = i.

(** The store once the target has been taken out of its parent's child
    list. *)
Local Abbreviation h1 := (<[p := ONode pid (Some (delete i cs))]> h).
Local Abbreviation rec k := (λ h' c', remove_from_tree node_eq k h' c' node).

Lemma removed_shrinks : shrinks h h1.
Proof. apply (shrinks_insert h p pid cs _ Hp), sublist_delete. Qed.

Lemma removed_id d k : h1 !! d = Some (ONode nid k) → getattr_id h d = Some (Ok nid).
Proof.
  destruct (decide (d = p)) as [->|Hne].
  - rewrite lookup_insert_eq. intros [= -> _].
    apply getattr_id_lookup. by eauto.
  - rewrite lookup_insert_ne by done. intros Hd.
    apply getattr_id_lookup. by eauto.
Qed.

Lemma removed_reaches r a : reaches h1 r a → reaches h r a.
Proof.
  induction 1 as [|a ia ds d Ha IH Hlk Hd]; [constructor|].
  destruct (decide (a = p)) as [->|Hne].
  - rewrite lookup_insert_eq in Hlk. injection Hlk as <- <-.
    eapply reaches_child; [exact IH|exact Hp|].
    by eapply sublist_subseteq; [apply sublist_delete|].
  - rewrite lookup_insert_ne in Hlk by done. by eapply reaches_child.
Qed.

(** Afterwards no node of the tree has a child with the target's
    identity. *)
Lemma removed_absent r a :
  reaches h tree r → reaches h1 r a → ¬ has_child_with_id h1 a nid.
Proof.
  intros Hr Ha (j & ds & d & k & Hlk & Hd & Hid).
  apply removed_reaches in Ha.
  pose proof (reaches_trans _ _ _ _ Hr Ha) as Hta.
  apply removed_id in Hid.
  apply list_elem_of_lookup_1 in Hd as [x Hx].
  destruct (decide (a = p)) as [->|Hne].
  - rewrite lookup_insert_eq in Hlk. injection Hlk as <- <-.
    destruct (decide (x < i)) as [Hlt|Hge].
    + rewrite list_lookup_delete_lt in Hx by done.
      destruct (Huniq p pid cs x d Hta Hp Hx Hid) as [_ ->]. lia.
    + rewrite list_lookup_delete_ge in Hx by lia.
      destruct (Huniq p pid cs (S x) d Hta Hp Hx Hid) as [_ E]. lia.
  - rewrite lookup_insert_ne in Hlk by done.
    by destruct (Huniq a j ds x d Hta Hlk Hx Hid) as [-> _].
Qed.

Lemma removed_getattr_node : getattr_id h1 node = Some (Ok nid).
Proof.
  rewrite (shrinks_getattr_id h h1 node removed_shrinks); [done|].
  apply getattr_id_lookup in Hnode as [k ->]. by eexists.
Qed.

(** Once the target is out, every further call leaves the store as it
    is. *)
Lemma removed_call k r :
  reaches h tree r → stored_tree k h r →
  remove_from_tree node_eq k h1 r node = Some (h1, Ok r).
Proof.
  intros Hr Hst.
  destruct (stored_tree_shrinks k h h1 r removed_shrinks Hst)
    as (T & Hl & Ht).
  apply (remove_from_tree_absent_total node_eq k h1 r node T nid Hl Ht
           removed_getattr_node).
  intros a Ha. by apply (removed_absent r a).
Qed.

Lemma removed_loop k r rid ds n j :
  reaches h tree r → h1 !! r = Some (ONode rid (Some ds)) →
  (∀ d, d ∈ ds → stored_tree k h d) →
  length ds ≤ n + j →
  remove_loop node_eq (rec k) n h1 r node j = Some (h1, Ok ()).
Proof.
  intros Hr Hlk Hkids Hlen.
  apply (remove_loop_absent node_eq (rec k) n h1 r node j rid ds nid Hlk
           removed_getattr_node); [| |done].
  - apply (removed_absent r r Hr). constructor.
  - intros d Hd.
    assert (reaches h tree d) as Hrd.
    { apply (reaches_trans _ _ r _ Hr), removed_reaches.
      by eapply reaches_child; [constructor|..]. }
    split; [|by apply removed_call; [|apply Hkids]].
    destruct (stored_tree_node k h1 d) as (cid & kd & Hlkd); [|by eauto].
    by apply (stored_tree_shrinks k h h1 d removed_shrinks), Hkids.
Qed.

(** The loop over the children of [r], from the index [j] on, in the
    store in which the target is still in place. *)
Lemma remove_unique_loop k r rid ds :
  (∀ d, reaches h tree d → stored_tree k h d →
        rec k h d = Some (h1, Ok d) ∨
        (rec k h d = Some (h, Ok d) ∧ ¬ reaches h d p)) →
  reaches h tree r → h !! r = Some (ONode rid (Some ds)) →
  (∀ d, d ∈ ds → stored_tree k h d) →
  ∀ n j, length ds ≤ n + j → (r = p → j ≤ i) →
    remove_loop node_eq (rec k) n h r node j = Some (h1, Ok ()) ∨
    (remove_loop node_eq (rec k) n h r node j = Some (h, Ok ()) ∧
     r ≠ p ∧
     ∀ j' d, j ≤ j' → ds !! j' = Some d → ¬ reaches h d p).
Proof.
  intros Hrec Hr Hlk Hkids.
  assert (∀ x, h1 !! r = Some (ONode rid (Some x)) →
               x `sublist_of` ds) as Hsub1.
  { intros x Hx. destruct (decide (r = p)) as [->|Hne].
    - rewrite lookup_insert_eq in Hx. rewrite Hp in Hlk.
      injection Hx as _ <-. injection Hlk as _ <-. apply sublist_delete.
    - rewrite lookup_insert_ne in Hx by done. rewrite Hlk in Hx.
      by injection Hx as <-. }
  assert (∃ x, h1 !! r = Some (ONode rid (Some x))) as [ds1 Hlk1].
  { destruct (decide (r = p)) as [->|Hne].
    - rewrite lookup_insert_eq. rewrite Hp in Hlk. injection Hlk as <- _.
      by eexists.
    - rewrite lookup_insert_ne by done. by eexists. }
  pose proof (Hsub1 ds1 Hlk1) as Hsub.
  assert (∀ d, d ∈ ds1 → stored_tree k h d) as Hkids1.
  { intros d Hd. apply Hkids. by eapply sublist_subseteq. }
  apply sublist_length in Hsub.
  induction n as [|n IH]; intros j Hlen Hj;
    destruct (ds !! j) as [child|] eqn:Hch.
  1:{ apply lookup_lt_Some in Hch. lia. }
  1,3: rewrite (remove_loop_stop node_eq _ _ h r node j rid ds Hlk Hch);
    right; split; [done|]; split;
    [intros ->; rewrite Hp in Hlk; injection Hlk as _ <-;
     apply lookup_ge_None in Hch; apply lookup_lt_Some in Hi;
     specialize (Hj eq_refl); lia
    |intros j' d Hjj Hd; apply lookup_ge_None in Hch;
     apply lookup_lt_Some in Hd; lia].
  assert (child ∈ ds) as Hin by by eapply list_elem_of_lookup_2.
  assert (reaches h tree child) as Hrc by by eapply reaches_child.
  destruct (stored_tree_node k h child (Hkids child Hin))
    as (cid & kc & Hlkc).
  assert (getattr_id h child = Some (Ok cid)) as Hcid
    by (apply getattr_id_lookup; eauto).
  destruct (decide (cid = nid)) as [->|Hne].
  - destruct (Huniq r rid ds j child Hr Hlk Hch Hcid) as [-> ->].
    rewrite Hp in Hlk. injection Hlk as <- <-.
    assert (list_remove node_eq h child cs = Some (delete i cs)) as Hrm.
    { apply (list_remove_at node_eq h cs i child nid kc Hresp Hch Hlkc).
      intros x y Hx Hy.
      assert (y ∈ cs) as Hyin by by eapply list_elem_of_lookup_2.
      destruct (stored_tree_node k h y (Hkids y Hyin)) as (iy & ky & Hlky).
      exists iy, ky. split; [done|]. intros ->.
      assert (getattr_id h y = Some (Ok nid)) as Hyid
        by (apply getattr_id_lookup; eauto).
      destruct (Huniq p pid cs x y Hr Hp Hy Hyid) as [_ ->]. lia. }
    rewrite (remove_loop_drop node_eq _ n h p node i pid cs (delete i cs)
               child nid Hp Hch Hcid Hnode Hrm).
    rewrite (removed_call k child Hrc (Hkids child Hin)).
    left. apply (removed_loop k p pid ds1 n (S i) Hr Hlk1 Hkids1).
    rewrite lookup_insert_eq in Hlk1. injection Hlk1 as <-.
    rewrite length_delete by by eexists. lia.
  - rewrite (remove_loop_keep node_eq _ n h r node j rid ds child cid nid
               Hlk Hch Hcid Hnode Hne).
    destruct (Hrec child Hrc (Hkids child Hin)) as [E|[E Hnr]]; rewrite E.
    + left. apply (removed_loop k r rid ds1 n (S j) Hr Hlk1 Hkids1). lia.
    + destruct (IH (S j)) as [E2|(E2 & Hrp & Hrest)].
      * lia.
      * intros ->. specialize (Hj eq_refl). enough (j ≠ i) by lia.
        intros ->. rewrite Hp in Hlk. injection Hlk as _ <-.
        rewrite Hi in Hch. injection Hch as ->. congruence.
      * by left.
      * right. split_and!; [done..|]. intros j' d Hjj Hd.
        destruct (decide (j' = j)) as [->|Hjne].
        -- rewrite Hch in Hd. by injection Hd as <-.
        -- apply (Hrest j' d); [lia|done].
Qed.

Lemma remove_unique_call k r :
  reaches h tree r → stored_tree k h r →
  remove_from_tree node_eq k h r node = Some (h1, Ok r) ∨
  (remove_from_tree node_eq k h r node = Some (h, Ok r) ∧
   ¬ reaches h r p).
Proof.
  revert r. induction k as [|k IH]; intros r Hr Hst.
  { by destruct Hst as (T & Hl & _). }
  destruct (stored_tree_inv k h r Hst) as (rid & kids & Hlk & Hkids).
  destruct kids as [[|d ds]|].
  - right. split; [by cbn; rewrite Hlk|].
    intros [->|(i' & cs' & c' & Hr' & Hc' & _)]%reaches_inv.
    + rewrite Hp in Hlk. by injection Hlk as _ ->.
    + rewrite Hlk in Hr'. injection Hr' as _ <-. by apply elem_of_nil in Hc'.
  - rewrite (remove_from_tree_inner node_eq k h r node rid d ds Hlk).
    destruct (remove_unique_loop k r rid (d :: ds) IH Hr Hlk
                (Hkids _ eq_refl) (length (d :: ds)) 0)
      as [E|(E & Hrp & Hrest)]; [lia|lia|..]; rewrite E; [by left|].
    right. split; [done|].
    intros [->|(i' & cs' & c' & Hr' & Hc' & Hreach)]%reaches_inv; [done|].
    rewrite Hlk in Hr'. injection Hr' as _ <-.
    apply list_elem_of_lookup_1 in Hc' as [j' Hj'].
    apply (Hrest j' c'); [lia|done..].
  - right. split; [by eapply remove_from_tree_leaf|].
    intros [->|(i' & cs' & c' & Hr' & _)]%reaches_inv; congruence.
Qed.

Lemma remove_unique k :
  reaches h tree p → stored_tree k h tree →
  remove_from_tree node_eq k h tree node = Some (h1, Ok tree).
Proof.
  intros Hrp Hst.
  by destruct (remove_unique_call k tree (reaches_root h tree) Hst)
    as [E|[_ Hn]].
Qed.
End remove_unique.

(** X11.  [remove_from_tree] does its work when the target's identity
    occurs once.  In a stored tree let the node [p] have, at the index
    [i] of its child list [cs], a child with the identity of the target
    node, and let this be the only place in the tree where a child has
    that identity.  Then, under every [==] for which equal nodes have
    equal identities, the call returns the address it was given, the
    only change to the store is that the child list of [p] has lost the
    item at the index [i], and afterwards no node of the tree has a
    child with the target's identity. *)
Theorem remove_takes_out_unique_identity
    (node_eq : heap → nat → nat → bool)
    (k : nat) (h : heap) (tree node : nat) (T : pyobj) (nid : Z)
    (p : nat) (pid : Z) (cs : list nat) (i c : nat) :
  eq_respects_id node_eq →
  load k h tree = Some T → is_tree T = true →
  getattr_id h node = Some (Ok nid) →
  reaches h tree p → h !! p = Some (ONode pid (Some cs)) →
  cs !! i = Some c → getattr_id h c = Some (Ok nid) →
  (∀ a ia ds j d,
     reaches h tree a → h !! a = Some (ONode ia (Some ds)) →
     ds !! j = Some d → getattr_id h d = Some (Ok nid) → a = p ∧ j = i) →
  let h' := <[p := ONode pid (Some (delete i cs))]> h in
  remove_from_tree node_eq k h tree node = Some (h', Ok tree) ∧
  ∀ a, reaches h' tree a → ¬ has_child_with_id h' a nid.
Proof.
  intros Hresp Hl Ht Hnode Hrp Hp Hi Hc Huniq h'. split.
  - apply (remove_unique node_eq Hresp h tree node p i c nid pid cs
             Hnode Hp Hi Hc Huniq k Hrp).
    by exists T.
  - intros a Ha.
    apply (removed_absent h tree p i nid pid cs Hp Huniq tree a);
      [constructor|done].
Qed.

Lemma remove_takes_out_unique_identity_witness :
  remove_from_tree same_object 3 heap_unique 0 3
  = Some (<[2 := ONode 2 (Some (delete 0 [3; 4]))]> heap_unique, Ok 0) ∧
  ∀ a, reaches (<[2 := ONode 2 (Some (delete 0 [3; 4]))]> heap_unique) 0 a →
       ¬ has_child_with_id
           (<[2 := ONode 2 (Some (delete 0 [3; 4]))]> heap_unique) a 3.
Proof.
  apply (remove_takes_out_unique_identity same_object 3 heap_unique 0 3
           (Node 0 CdpNode
              (Some [Node 1 CdpNode None;
                     Node 2 CdpNode
                       (Some [Node 3 CdpNode None; Node 4 CdpNode None])]))
           3%Z 2 2%Z [3; 4] 0 3).
  - exact same_object_respects_id.
  - reflexivity.
  - reflexivity.
  - reflexivity.
  - eapply reaches_child; [constructor|reflexivity|].
    by apply (list_elem_of_lookup_2 _ 1).
  - reflexivity.
  - reflexivity.
  - reflexivity.
  - intros a ia ds j d _ Ha Hj Hd. unfold heap_unique in Ha.
    repeat (apply lookup_insert_Some in Ha as [[<- Ha]|[_ Ha]]);
      try done; injection Ha as <- <-;
      destruct j as [|[|j]]; try done; injection Hj as <-;
      by vm_compute in Hd.
Defined.

(** On the sample tree: C is taken out from under B, and D stays. *)
Example remove_from_heap_unique :
  ∃ h',
    remove_from_tree same_object 3 heap_unique 0 3 = Some (h', Ok 0) ∧
    load 3 h' 0
    = Some (Node 0 CdpNode
              (Some [Node 1 CdpNode None;
                     Node 2 CdpNode (Some [Node 4 CdpNode None])])).
Proof. eexists. split; reflexivity. Qed.

(** ** Port allocation that fails *)

(** X12.  [free_port] has no handler and no clean-up.  Whenever it
    raises, the kernel has refused either the descriptor or the port.
    In the first case nothing was done.  In the second the exception of
    [bind] leaves the function after the calls [socket] and [bind]:
    [listen], [getsockname] and [close] are not called, and the socket
    that was opened is still open, unbound, when the exception reaches
    the caller. *)
Theorem free_port_failure_leaves_socket_open
    (new_fd : kernel → option nat)
    (choose_port : kernel → string → option Z)
    (k k' : kernel) (e : exn) :
  free_port new_fd choose_port k = (k', Raise e) →
  (new_fd k = None ∧ k' = k ∧ e = OSError 24) ∨
  (∃ fd,
     new_fd k = Some fd ∧
     choose_port
       {| sockets :=
            <[fd := {| local := None; backlog := None |}]> (sockets k);
          calls := calls k ++ [SysSocket fd] |} "127.0.0.1" = None ∧
     e = OSError 98 ∧
     calls k' = calls k ++ [SysSocket fd; SysBind fd "127.0.0.1" 0] ∧
     sockets k' !! fd = Some {| local := None; backlog := None |} ∧
     ∀ fd2, fd2 ≠ fd → sockets k' !! fd2 = sockets k !! fd2).
Proof.
  unfold free_port, and_then, sys_socket.
  destruct (new_fd k) as [fd|] eqn:Hfd.
  2:{ intros [= <- <-]. by left. }
  unfold sys_bind. cbn. rewrite lookup_insert_eq. cbn.
  destruct (choose_port _ _) as [p|] eqn:Hport.
  - unfold sys_listen, sys_getsockname, sys_close. cbn.
    rewrite lookup_insert_eq. cbn. by rewrite lookup_insert_eq.
  - intros [= <- <-]. right. exists fd. cbn.
    split_and!; [done..|by rewrite <- (assoc_L (++))
                |by rewrite lookup_insert_eq|].
    intros fd2 Hne. by rewrite lookup_insert_ne.
Qed.

Lemma free_port_failure_leaves_socket_open_witness :
  (least_fd idle_kernel = None ∧
   {| sockets := <[0 := {| local := None; backlog := None |}]> ∅;
      calls := [SysSocket 0; SysBind 0 "127.0.0.1" 0] |} = idle_kernel ∧
   OSError 98 = OSError 24) ∨
  (∃ fd,
     least_fd idle_kernel = Some fd ∧
     no_port
       {| sockets :=
            <[fd := {| local := None; backlog := None |}]>
              (sockets idle_kernel);
          calls := calls idle_kernel ++ [SysSocket fd] |} "127.0.0.1"
     = None ∧
     OSError 98 = OSError 98 ∧
     calls {| sockets := <[0 := {| local := None; backlog := None |}]> ∅;
              calls := [SysSocket 0; SysBind 0 "127.0.0.1" 0] |}
     = calls idle_kernel ++ [SysSocket fd; SysBind fd "127.0.0.1" 0] ∧
     sockets {| sockets := <[0 := {| local := None; backlog := None |}]> ∅;
                calls := [SysSocket 0; SysBind 0 "127.0.0.1" 0] |} !! fd
     = Some {| local := None; backlog := None |} ∧
     ∀ fd2, fd2 ≠ fd →
       sockets {| sockets := <[0 := {| local := None; backlog := None |}]> ∅;
                  calls := [SysSocket 0; SysBind 0 "127.0.0.1" 0] |} !! fd2
       = sockets idle_kernel !! fd2).
Proof.
  apply (free_port_failure_leaves_socket_open least_fd no_port idle_kernel
           {| sockets := <[0 := {| local := None; backlog := None |}]> ∅;
              calls := [SysSocket 0; SysBind 0 "127.0.0.1" 0] |}
           (OSError 98)).
  reflexivity.
Defined.

(** The port is refused on the sample kernel: the socket 0 stays. *)
Example free_port_without_ports :
  free_port least_fd no_port idle_kernel
  = ({| sockets := <[0 := {| local := None; backlog := None |}]> ∅;
        calls := [SysSocket 0; SysBind 0 "127.0.0.1" 0] |},
     Raise (OSError 98)).
Proof. reflexivity. Qed.

(** ** The registry of [Meta] *)

Lemma meta_do_lookup R st n :
  meta_do R st !! n = match files n st with Some o => Some o | None => R !! n end.
Proof.
  destruct st as [name|[m|e]]; cbn; [| |done].
  - case_bool_decide as Hn.
    + subst. by rewrite lookup_insert_eq.
    + by rewrite lookup_insert_ne.
  - destruct (has_dict m); cbn; [|done]. case_bool_decide as Hn.
    + subst. by rewrite lookup_insert_eq.
    + by rewrite lookup_insert_ne.
Qed.

Lemma files_filed_as n st o : files n st = Some o → filed_as o = n.
Proof.
  destruct st as [name|[m|e]]; cbn; [| |done].
  - case_bool_decide; [|done]. by intros [= <-].
  - destruct (has_dict m); cbn; [|done].
    case_bool_decide; [|done]. by intros [= <-].
Qed.

Lemma meta_run_snoc steps st R :
  meta_run (steps ++ [st]) R = meta_do (meta_run steps R) st.
Proof. unfold meta_run. by rewrite foldl_app. Qed.

Lemma meta_run_lookup steps R n :
  meta_run steps R !! n
  = match last (omap (files n) steps) with
    | Some o => Some o
    | None => R !! n
    end.
Proof.
  induction steps as [|st steps IH] using rev_ind; [done|].
  rewrite meta_run_snoc, meta_do_lookup, omap_app.
  assert (omap (files n) [st]
          = match files n st with Some o => [o] | None => [] end) as ->
    by (cbn; by destruct (files n st)).
  destruct (files n st) as [o|].
  - by rewrite last_snoc.
  - by rewrite (right_id_L [] (++)).
Qed.

Lemma meta_run_names steps R :
  (∀ m o, R !! m = Some o → filed_as o = m) →
  ∀ m o, meta_run steps R !! m = Some o → filed_as o = m.
Proof.
  intros HR. induction steps as [|st steps IH] using rev_ind; [done|].
  intros m o. rewrite meta_run_snoc, meta_do_lookup.
  destruct (files m st) as [o'|] eqn:Hf.
  - intros [= <-]. by eapply files_filed_as.
  - apply IH.
Qed.

(** X13.  The registry of [Meta] is keyed by the bare class name and
    keeps one object per name.  After any run of class definitions and
    class calls, what [get_registry] returns holds under every name the
    object that was filed last under it, be it a class or an instance:
    an instance takes the place of its class, a later instance that of
    an earlier one, and a class that of a class of the same name.  A
    call whose constructor raises, or whose object takes no attribute,
    files nothing.  Names under which the run filed nothing keep the
    entry they had, and every entry stands under the name of its
    class. *)
Theorem meta_registry_keeps_latest
    (steps : list meta_step) (REGISTRY : registry) (n : string) :
  get_registry (meta_run steps REGISTRY) !! n
  = match last (omap (files n) steps) with
    | Some o => Some o
    | None => REGISTRY !! n
    end ∧
  ((∀ m o, REGISTRY !! m = Some o → filed_as o = m) →
   ∀ m o, meta_run steps REGISTRY !! m = Some o → filed_as o = m).
Proof.
  split.
  - apply meta_run_lookup.
  - apply meta_run_names.
Qed.

(** A class is defined and called; a second class is defined; the
    first is called again, then with an object that takes no attribute,
    then with a constructor that raises.  The name of the first class
    gives the second instance. *)
Example meta_registry_sample :
  meta_run
    [DefineClass "Tab";
     CallClass (Ok {| type_name := "Tab"; serial := 1; has_dict := true |});
     DefineClass "Page";
     CallClass (Ok {| type_name := "Tab"; serial := 2; has_dict := true |});
     CallClass (Ok {| type_name := "Tab"; serial := 3; has_dict := false |});
     CallClass (Raise ValueError)] ∅ !! "Tab"
  = Some (InstanceObj "Tab" 2).
Proof. by vm_compute. Qed.
